(** * Degrees of freedom and their collection

    A shallow embedding of [blop/bayesian/dofs.py]: the [DOF] dataclass with
    its [__post_init__], the validation helper [_validate_dofs], the
    [DOFList] sequence wrapper and the simulated read-only signals.

    Python objects that are mutated in place and may be shared (the list held
    in [DOFList.dofs]) live in an explicit store; a method is a function of
    the store that returns its outcome (a value or a raised exception)
    together with the store it leaves behind. *)

From Stdlib Require Import ZArith Floats.
From stdpp Require Import base option list strings pretty gmap sorting.

(** ** Exceptions and outcomes *)

Inductive exn := ValueError | TypeError | AttributeError | IndexError.

Inductive result (A : Type) :=
  | Ok (a : A)
  | Raise (e : exn).
Arguments Ok {A} a.
Arguments Raise {A} e.

Global Instance result_ret : MRet result := @Ok.
Global Instance result_bind : MBind result := λ A B f m,
  match m with Ok a => f a | Raise e => Raise e end.

Global Instance exn_eq_dec : EqDecision exn.
Proof. solve_decision. Defined.

(** ** The Python values that reach this module *)

Inductive pytype := Tint | Tstr | Tbool | Tfloat | TNoneType.

Global Instance pytype_eq_dec : EqDecision pytype.
Proof. solve_decision. Defined.

Inductive pyval :=
  | PyInt (z : Z)
  | PyStr (s : string)
  | PyBool (b : bool)
  | PyFloat (x : float)
  | PyNone.

(** [type(v)]: the exact class of a value ([bool] is a class of its own, so
    [type(True) is int] is false). *)
Definition type (v : pyval) : pytype :=
  match v with
  | PyInt _ => Tint
  | PyStr _ => Tstr
  | PyBool _ => Tbool
  | PyFloat _ => Tfloat
  | PyNone => TNoneType
  end.

(** ** Built-in list operations *)

(** [l[i]]: a negative index counts from the end, an index outside
    [-len(l) .. len(l)-1] raises [IndexError]. *)
Definition list_getitem {A : Type} (l : list A) (i : Z) : result A :=
  let n := Z.of_nat (length l) in
  let j := if (i <? 0)%Z then (i + n)%Z else i in
  if decide (0 ≤ j < n)%Z
  then from_option Ok (Raise IndexError) (l !! Z.to_nat j)
  else Raise IndexError.

(** [l.index(x)]: the position of the first element equal to [x];
    [ValueError] when there is none. *)
Definition list_index `{EqDecision A} (l : list A) (x : A) : result nat :=
  from_option (λ p, Ok p.1) (Raise ValueError) (list_find (λ y, y = x) l).

(** ** numpy *)

Definition str_le (a b : string) : Prop := String.leb a b = true.

Global Instance str_le_dec : RelDecision str_le.
Proof. intros a b. unfold str_le. apply _. Defined.

(** What a numpy array of strings holds for the Python string [s]. The
    array has a fixed width and pads each entry with NUL characters, so an
    entry reads back without its trailing NUL characters: ["a"] and
    ["a\0"] are one value to numpy. *)
Fixpoint np_str (s : string) : string :=
  match s with
  | EmptyString => EmptyString
  | String c s =>
      let r := np_str s in
      if decide (c = Ascii.zero ∧ r = EmptyString) then EmptyString
      else String c r
  end.

(** [np.unique(xs, return_counts=True)]: [xs] is made an array first; the
    result is the distinct values of the array in sorted order and, for each
    of them, the number of times it occurs in the array. *)
Definition np_unique (xs : list string) : list string * list nat :=
  let a := np_str <$> xs in
  let u := merge_sort str_le (remove_dups a) in
  (u, (λ x, count_occ (decide_rel (=)) a x) <$> u).

(** [a[mask]]: the entries of [a] at the positions where the boolean array
    [mask] is true. *)
Definition np_select {A : Type} (a : list A) (mask : list bool) : list A :=
  (filter (λ p, p.2 = true) (zip a mask)).*1.

(** [np.c_[a, b]] on two one-dimensional arrays of one length: the array with
    one row [(a[k], b[k])] per position. *)
Definition np_c_ {A : Type} (a b : list A) : list (A * A) := zip a b.

(** ** Devices

    The device behind a DOF is an ophyd signal: [Signal], its read-only
    subclass [SignalRO], or one of the three simulated read-only signals this
    module defines as subclasses of [SignalRO]. An ophyd object always has a
    string [name] and a [kind]. *)

Inductive signal_class :=
  | cls_Signal
  | cls_SignalRO
  | cls_BrownianMotion
  | cls_TimeReadback
  | cls_ConstantReadback.

Record signal := {
  dev_class : signal_class;
  dev_name : string;
  dev_kind : string;
}.

(** [isinstance(dev, SignalRO)] *)
Definition isinstance_SignalRO (dev : signal) : bool :=
  match dev_class dev with
  | cls_Signal => false
  | cls_SignalRO | cls_BrownianMotion | cls_TimeReadback
  | cls_ConstantReadback => true
  end.

(** [Signal(name=n)]: ophyd gives a new signal the kind ["normal"]. *)
Definition Signal (n : string) : signal :=
  {| dev_class := cls_Signal; dev_name := n; dev_kind := "normal" |}.

(** [dev.kind = k] *)
Definition set_kind (k : string) (dev : signal) : signal :=
  {| dev_class := dev_class dev; dev_name := dev_name dev; dev_kind := k |}.

(** ** UUIDs

    [uuid.uuid4()] draws from a generator; the state of the generator is the
    sequence of the strings it is still to produce. *)

Definition uuid_gen := nat → string.

Definition uuid4 (g : uuid_gen) : string * uuid_gen := (g 0, λ n, g (S n)).

(** ** The DOF dataclass *)

(** The attributes of a [DOF] instance while [__post_init__] runs: the ten
    dataclass fields as the generated [__init__] stored them (a field whose
    default is [None] is an [option]) and the attribute [uuid], unset until
    [__post_init__] assigns it. *)
Record DOF_self := {
  self_device : option signal;
  self_description : option string;
  self_name : option string;
  self_limits : float * float;
  self_units : string;
  self_read_only : bool;
  self_active : bool;
  self_tags : list string;
  self_log : bool;
  self_latent_group : option string;
  self_uuid : option string;
}.

(** A constructed DOF. *)
Record DOF := {
  device : signal;
  description : option string;
  name : string;
  limits : float * float;
  units : string;
  read_only : bool;
  active : bool;
  tags : list string;
  log : bool;
  latent_group : string;
  uuid : string;
}.

Module DOF.

(** The field defaults of the dataclass: what [DOF()] stores before
    [__post_init__] runs. *)
Definition defaults : DOF_self :=
  {| self_device := None; self_description := None; self_name := None;
     self_limits := ((-10)%float, 10%float); self_units := "";
     self_read_only := false; self_active := true; self_tags := [];
     self_log := false; self_latent_group := None; self_uuid := None |}.

(** [self.device.name if hasattr(self.device, "name") else self.uuid]:
    [None] has no attribute [name], a signal always has one. *)
Definition device_name_or (dev : option signal) (u : string) : string :=
  match dev with
  | Some d => dev_name d
  | None => u
  end.

Definition __post_init__ (self : DOF_self) (g : uuid_gen)
  : result DOF_self * uuid_gen :=
  let '(u, g) := uuid4 g in
  let name :=
    match self_name self with
    | None => Some (device_name_or (self_device self) u)
    | Some n => Some n
    end in
  let device :=
    match self_device self, name with
    | None, Some n => Some (Signal n)
    | dev, _ => dev
    end in
  if negb (self_read_only self) && from_option isinstance_SignalRO false device
  then (Raise ValueError, g)
  else
    let '(latent_group, g) :=
      match self_latent_group self with
      | None => let '(v, g) := uuid4 g in (Some v, g)
      | Some v => (Some v, g)
      end in
    (Ok {| self_device := set_kind "hinted" <$> device;
           self_description := self_description self;
           self_name := name;
           self_limits := self_limits self;
           self_units := self_units self;
           self_read_only := self_read_only self;
           self_active := self_active self;
           self_tags := self_tags self;
           self_log := self_log self;
           self_latent_group := latent_group;
           self_uuid := Some u |}, g).

(** The instance as the rest of the module sees it, once the attributes
    that may start as [None] are all set. *)
Definition constructed (self : DOF_self) : option DOF :=
  dev ← self_device self;
  n ← self_name self;
  lg ← self_latent_group self;
  u ← self_uuid self;
  Some {| device := dev; description := self_description self; name := n;
          limits := self_limits self; units := self_units self;
          read_only := self_read_only self; active := self_active self;
          tags := self_tags self; log := self_log self;
          latent_group := lg; uuid := u |}.

Definition lower_limit (d : DOF) : float := (limits d).1.
Definition upper_limit (d : DOF) : float := (limits d).2.

(** [label]: the name, followed by the units in square brackets when the
    units are not the empty string. *)
Definition label (d : DOF) : string :=
  name d +:+
  (if decide (0 < String.length (units d))
   then " [" +:+ units d +:+ "]"
   else "").

End DOF.

(** ** Validation *)

Definition _validate_dofs (dofs : list DOF) : result (list DOF) :=
  let dof_names := name <$> dofs in
  (* check that dof names are unique *)
  let '(unique_dof_names, counts) := np_unique dof_names in
  let duplicate_dof_names :=
    np_select unique_dof_names ((λ c, bool_decide (1 < c)) <$> counts) in
  if decide (0 < length duplicate_dof_names)
  then Raise ValueError
  else Ok dofs.

(** ** The store of list objects *)

Definition loc := positive.

(** [store]: the Python lists of DOFs that exist, by address. *)
Abbreviation store := (gmap loc (list DOF)).

(** A list display [[d1, ..., dn]] builds a new list object. *)
Definition alloc (xs : list DOF) (σ : store) : loc * store :=
  let l := fresh (dom σ) in (l, <[l := xs]> σ).

(** The list object built once, when [DOFList.__init__] is defined, for the
    default value of its parameter [dofs]. *)
Definition default_dofs : loc := 1%positive.

(** ** DOFList *)

(** A [DOFList] instance has one attribute, [dofs]: a reference to the list
    it was given. *)
Record DOFList := { dofs : loc }.

(** Subscripting a DOF: the dataclass defines no [__getitem__], so
    [dof[key]] raises [TypeError] whatever the key. *)
Definition DOF_subscript (dof : DOF) (key : string) : result (list string) :=
  Raise TypeError.

(** [np.isin(xs, tags).any()] *)
Definition np_isin_any (xs tags : list string) : bool :=
  existsb (λ x, bool_decide (x ∈ tags)) xs.

(** [dof.active = b], by object identity: every occurrence of the object
    (an instance is identified by the [uuid] it drew) sees the new flag. *)
Definition set_active (b : bool) (target : DOF) (σ : store) : store :=
  fmap (M := list) (λ d,
    if decide (uuid d = uuid target)
    then {| device := device d; description := description d; name := name d;
            limits := limits d; units := units d; read_only := read_only d;
            active := b; tags := tags d; log := log d;
            latent_group := latent_group d; uuid := uuid d |}
    else d) <$> σ.

Module DOFList.

(** The list [self.dofs] refers to. *)
Definition contents (σ : store) (self : DOFList) : list DOF :=
  default [] (σ !! dofs self).

(** [DOFList(dofs)]: the instance keeps the very list it was given. *)
Definition __init__ (dofs : loc) (σ : store) : result DOFList * store :=
  match _validate_dofs (default [] (σ !! dofs)) with
  | Raise e => (Raise e, σ)
  | Ok _ => (Ok {| dofs := dofs |}, σ)
  end.

Definition names (σ : store) (self : DOFList) : list string :=
  name <$> contents σ self.

Definition __getitem__ (σ : store) (self : DOFList) (i : pyval) : result DOF :=
  match i with
  | PyInt z => list_getitem (contents σ self) z
  | PyStr s =>
      k ← list_index (names σ self) s;
      list_getitem (contents σ self) (Z.of_nat k)
  | _ => Raise ValueError
  end.

Definition __len__ (σ : store) (self : DOFList) : nat :=
  length (contents σ self).

Definition add (self : DOFList) (dof : DOF) (σ : store) : result () * store :=
  match _validate_dofs (contents σ self ++ [dof]) with
  | Raise e => (Raise e, σ)
  | Ok _ => (Ok (), alter (λ l, l ++ [dof]) (dofs self) σ)
  end.

Definition _dof_read_only_mask (σ : store) (self : DOFList)
    (read_only' : option bool) : list bool :=
  (λ dof, match read_only' with
          | Some r => bool_decide (read_only dof = r)
          | None => true
          end) <$> contents σ self.

Definition _dof_active_mask (σ : store) (self : DOFList)
    (active' : option bool) : list bool :=
  (λ dof, match active' with
          | Some a => bool_decide (active dof = a)
          | None => true
          end) <$> contents σ self.

Definition _dof_tags_mask (σ : store) (self : DOFList)
    (tags' : list string) : result (list bool) :=
  mapM (λ dof,
          match tags' with
          | _ :: _ => ts ← DOF_subscript dof "tags"; Ok (np_isin_any ts tags')
          | [] => Ok true
          end) (contents σ self).

Definition _dof_mask (σ : store) (self : DOFList)
    (active' read_only' : option bool) (tags' : list string)
  : result (list bool) :=
  let ks := _dof_read_only_mask σ self read_only' in
  let ms := _dof_active_mask σ self active' in
  ts ← _dof_tags_mask σ self tags';
  Ok (zip_with (λ k mt, k && mt.1 && mt.2) ks (zip ms ts)).

Definition subset (self : DOFList) (active' read_only' : option bool)
    (tags' : list string) (σ : store) : result DOFList * store :=
  match _dof_mask σ self active' read_only' tags' with
  | Raise e => (Raise e, σ)
  | Ok mask =>
      let '(l, σ) :=
        alloc (filter (λ p, p.2 = true) (zip (contents σ self) mask)).*1 σ in
      __init__ l σ
  end.

(** The names bound on a [DOFList] instance: the instance attribute, the
    names of the class body and the mixin methods of [Sequence]. *)
Definition attributes : list string :=
  ["dofs"; "__init__"; "__getitem__"; "__len__"; "__repr__"; "summary";
   "names"; "devices"; "device_names"; "lower_limits"; "upper_limits";
   "limits"; "readback"; "add"; "_dof_read_only_mask"; "_dof_active_mask";
   "_dof_tags_mask"; "_dof_mask"; "subset"; "activate"; "deactivate";
   "__contains__"; "__iter__"; "__reversed__"; "index"; "count"].

(** What [activate] and [deactivate] do with the attribute they look up:
    call it on three arguments and iterate over the result. *)
Definition iterable_method : Type :=
  option bool → option bool → list string → store → result (list DOF) * store.

(** [self.subset] seen that way: iterating over the [DOFList] it returns
    yields the DOFs of its list in order. The other bound names are never
    looked up by this module; a call of one of them stands as a
    [TypeError]. *)
Definition bound (self : DOFList) (attr : string) : iterable_method :=
  if decide (attr = "subset")
  then λ a r t σ,
         match subset self a r t σ with
         | (Ok sub, σ) => (Ok (contents σ sub), σ)
         | (Raise e, σ) => (Raise e, σ)
         end
  else λ _ _ _ σ, (Raise TypeError, σ).

(** [getattr(self, attr)]: [AttributeError] for a name that is not bound. *)
Definition getattr (self : DOFList) (attr : string) : result iterable_method :=
  if decide (attr ∈ attributes) then Ok (bound self attr)
  else Raise AttributeError.

(** [for dof in m(read_only, active, tags): dof.active = b] *)
Definition set_active_of (b : bool) (self : DOFList)
    (read_only' active' : option bool) (tags' : list string) (σ : store)
  : result () * store :=
  match getattr self "_subset_dofs" with
  | Raise e => (Raise e, σ)
  | Ok m =>
      match m read_only' active' tags' σ with
      | (Raise e, σ) => (Raise e, σ)
      | (Ok ds, σ) => (Ok (), foldl (λ σ dof, set_active b dof σ) σ ds)
      end
  end.

Definition activate := set_active_of true.
Definition deactivate := set_active_of false.

Definition lower_limits (σ : store) (self : DOFList) : list float :=
  DOF.lower_limit <$> contents σ self.

Definition upper_limits (σ : store) (self : DOFList) : list float :=
  DOF.upper_limit <$> contents σ self.

(** Returns a (n_dof, 2) array of bounds. *)
Definition limits (σ : store) (self : DOFList) : list (float * float) :=
  np_c_ (lower_limits σ self) (upper_limits σ self).

End DOFList.

(** ** Programs that build and extend DOFLists

    What a client can do with the constructor and the methods that build or
    change a collection: write a list display, construct a [DOFList] from a
    list it holds or from the default, [add] to a [DOFList] it has built,
    take a [subset] of one (which constructs the result). A raised exception
    is caught and the program goes on. *)

Record world := {
  lists : store;
  created : list DOFList;
}.

Inductive command :=
  | NewList (xs : list DOF)
  | Construct (l : loc)
  | ConstructDefault
  | Add (k : nat) (dof : DOF)
  | Subset (k : nat) (active' read_only' : option bool) (tags' : list string).

Definition initial : world :=
  {| lists := {[ default_dofs := [] ]}; created := [] |}.

(** The world after a constructor call: the object is there when the call
    returned it. *)
Definition keep (r : result DOFList * store) (w : world) : world :=
  {| lists := r.2;
     created := match r.1 with
                | Ok L => created w ++ [L]
                | Raise _ => created w
                end |}.

(** A command that names a list or a [DOFList] that does not exist is not a
    program step; it leaves the world as it is. *)
Definition exec (w : world) (c : command) : world :=
  match c with
  | NewList xs => {| lists := (alloc xs (lists w)).2; created := created w |}
  | Construct l =>
      if decide (is_Some (lists w !! l))
      then keep (DOFList.__init__ l (lists w)) w
      else w
  | ConstructDefault => keep (DOFList.__init__ default_dofs (lists w)) w
  | Add k dof =>
      match created w !! k with
      | Some L => {| lists := (DOFList.add L dof (lists w)).2;
                     created := created w |}
      | None => w
      end
  | Subset k a r t =>
      match created w !! k with
      | Some L => keep (DOFList.subset L a r t (lists w)) w
      | None => w
      end
  end.

Definition run (cs : list command) : world := foldl exec initial cs.

(** The name of a DOF as [np.unique] sees it. *)
Definition np_name (d : DOF) : string := np_str (name d).

(** What [_validate_dofs] checks of a list: its names are pairwise distinct
    as numpy compares them, that is up to trailing NUL characters. *)
Definition np_distinct (ds : list DOF) : Prop := NoDup (np_name <$> ds).

Global Instance np_distinct_dec (ds : list DOF) : Decision (np_distinct ds).
Proof. unfold np_distinct. apply _. Defined.

(** The uniqueness invariant of a [DOFList]: no two DOFs of its list have the
    same name, and none either as [_validate_dofs] compares names. *)
Definition unique_names (σ : store) (L : DOFList) : Prop :=
  ∃ ds, σ !! dofs L = Some ds ∧ NoDup (name <$> ds) ∧ np_distinct ds.

(** The invariant of a world: the default list exists and every [DOFList]
    built so far has pairwise distinct names. *)
Definition world_ok (w : world) : Prop :=
  is_Some (lists w !! default_dofs) ∧
  ∀ L, L ∈ created w → unique_names (lists w) L.

(** ** Simulated read-only signals

    [get] is passed the reading of the wall clock at the time of the call
    ([ttime.time()]), whether or not the class looks at it. *)

Module TimeReadback.

Record t := { base : signal }.

Definition __init__ (name : string) : t :=
  {| base := {| dev_class := cls_TimeReadback; dev_name := name;
                dev_kind := "normal" |} |}.

Definition get (self : t) (clock : float) : pyval * t :=
  (PyFloat clock, self).

End TimeReadback.

Module ConstantReadback.

Record t := { base : signal; constant : pyval }.

Definition __init__ (constant : pyval) (name : string) : t :=
  {| base := {| dev_class := cls_ConstantReadback; dev_name := name;
                dev_kind := "normal" |};
     constant := constant |}.

Definition get (self : t) (clock : float) : pyval * t :=
  (constant self, self).

(** One [get] per clock reading, in order, each on the object the previous
    one left. *)
Fixpoint reads (self : t) (clocks : list float) : list pyval :=
  match clocks with
  | [] => []
  | c :: clocks =>
      let '(v, self) := get self c in v :: reads self clocks
  end.

End ConstantReadback.

(** ** What a filter argument asks for *)

(** An argument [None] asks nothing of a flag; a boolean asks the flag to
    equal it. *)
Definition wanted (flag : bool) (arg : option bool) : Prop :=
  match arg with
  | Some b => flag = b
  | None => True
  end.

Global Instance wanted_dec (flag : bool) (arg : option bool) :
  Decision (wanted flag arg).
Proof. destruct arg; cbn [wanted]; apply _. Defined.

(** The DOFs that [subset(active=a, read_only=r)] is to return. *)
Definition selected (a r : option bool) (d : DOF) : Prop :=
  wanted (active d) a ∧ wanted (read_only d) r.

Global Instance selected_dec (a r : option bool) (d : DOF) :
  Decision (selected a r d).
Proof. unfold selected. apply _. Defined.

(** ** Sample data *)

(** A DOF with the given name, flags and tags, around a plain [Signal] of
    the same name; used to run the definitions on concrete collections. *)
Definition dof_named (n : string) (ro act : bool) (tg : list string) : DOF :=
  {| device := set_kind "hinted" (Signal n); description := None; name := n;
     limits := ((-10)%float, 10%float); units := ""; read_only := ro;
     active := act; tags := tg; log := false;
     latent_group := "g-" +:+ n; uuid := "u-" +:+ n |}.

(** A generator for running [__post_init__]: its n-th UUID is ["uuid-n"]. *)
Definition counting_uuids : uuid_gen := λ n, "uuid-" +:+ pretty n.

(** A second generator: its n-th UUID is n+1 times the letter ["f"]. *)
Fixpoint tally_uuids (n : nat) : string :=
  match n with
  | 0 => "f"
  | S n => "f" +:+ tally_uuids n
  end.

(** ** Constructing several DOFs in a row *)

(** [DOF(...)] once per entry, in order, each drawing from the generator as
    the previous construction left it. *)
Fixpoint construct_all (selves : list DOF_self) (g : uuid_gen)
  : list (result DOF_self) :=
  match selves with
  | [] => []
  | self :: selves =>
      let '(r, g) := DOF.__post_init__ self g in r :: construct_all selves g
  end.

(** * Properties *)

(** ** Validation *)

Lemma np_select_fmap {A : Type} (g : A → bool) (a : list A) :
  np_select a (g <$> a) = filter (λ x, g x = true) a.
Proof.
  unfold np_select. induction a as [|x a IH]; [done|].
  cbn [fmap list_fmap zip zip_with]. rewrite !filter_cons. cbn [snd].
  destruct (decide (g x = true)); cbn [fmap list_fmap fst]; by rewrite <- IH.
Qed.

Lemma elem_of_unique (xs : list string) (x : string) :
  x ∈ (np_unique xs).1 ↔ x ∈ np_str <$> xs.
Proof.
  unfold np_unique; cbn [fst].
  by rewrite merge_sort_Permutation, elem_of_remove_dups.
Qed.

Lemma duplicates_filter (xs : list string) :
  np_select (np_unique xs).1 ((λ c, bool_decide (1 < c)) <$> (np_unique xs).2)
  = filter (λ x, bool_decide
                   (1 < count_occ (decide_rel (=)) (np_str <$> xs) x) = true)
      (np_unique xs).1.
Proof.
  unfold np_unique; cbn [fst snd].
  by rewrite <- list_fmap_compose, np_select_fmap.
Qed.

Lemma np_names_fmap (ds : list DOF) : np_str <$> (name <$> ds) = np_name <$> ds.
Proof. by rewrite <- list_fmap_compose. Qed.

(** [_validate_dofs] returns its argument when the names are pairwise
    distinct as numpy compares them and raises [ValueError] otherwise. *)
Lemma validate_spec (ds : list DOF) :
  _validate_dofs ds =
  if decide (np_distinct ds) then Ok ds else Raise ValueError.
Proof.
  unfold _validate_dofs, np_distinct; cbv zeta.
  pose proof (duplicates_filter (name <$> ds)) as Hd.
  destruct (np_unique (name <$> ds)) as [u counts] eqn:Hu.
  cbn [fst snd] in Hd. rewrite Hd. clear Hd.
  assert (Hin : ∀ x, x ∈ u ↔ x ∈ np_name <$> ds).
  { intros x.
    by rewrite <- np_names_fmap, <- (elem_of_unique (name <$> ds)), Hu. }
  clear Hu. rewrite np_names_fmap.
  destruct (decide (0 < length _)) as [Hlen|Hlen].
  - rewrite decide_False; [done|]. intros Hnd.
    destruct (filter _ u) as [|x l] eqn:Hf; [cbn in Hlen; lia|].
    assert (Hx : x ∈ filter (λ x, bool_decide
               (1 < count_occ (decide_rel (=)) (np_name <$> ds) x) = true) u)
      by (rewrite Hf; left).
    apply list_elem_of_filter in Hx as [Hx _].
    apply bool_decide_eq_true in Hx.
    apply NoDup_ListNoDup in Hnd.
    pose proof (proj1 (NoDup_count_occ (decide_rel (=)) _) Hnd x). lia.
  - rewrite decide_True; [done|].
    apply NoDup_ListNoDup, (NoDup_count_occ (decide_rel (=))). intros x.
    destruct (decide (x ∈ np_name <$> ds)) as [Hx|Hx].
    + destruct (decide (1 < count_occ (decide_rel (=)) (np_name <$> ds) x))
        as [Hc|]; [|lia].
      exfalso. apply Hlen.
      assert (Hf : x ∈ filter (λ x, bool_decide
               (1 < count_occ (decide_rel (=)) (np_name <$> ds) x) = true) u).
      { apply list_elem_of_filter.
        split; [by apply bool_decide_eq_true|by apply Hin]. }
      destruct (filter _ u); [by apply elem_of_nil in Hf|cbn; lia].
    + rewrite list_elem_of_In in Hx.
      apply (count_occ_not_In (decide_rel (=))) in Hx. lia.
Qed.

Lemma validate_unique (ds : list DOF) :
  np_distinct ds → _validate_dofs ds = Ok ds.
Proof. intros H. rewrite validate_spec. by rewrite decide_True. Qed.

Lemma validate_duplicate (ds : list DOF) :
  ¬ np_distinct ds → _validate_dofs ds = Raise ValueError.
Proof. intros H. rewrite validate_spec. by rewrite decide_False. Qed.

Lemma validate_ok_inv (ds ds' : list DOF) :
  _validate_dofs ds = Ok ds' → np_distinct ds.
Proof. rewrite validate_spec. by case_decide. Qed.

(** Names that numpy tells apart are different names. *)
Lemma np_distinct_names (ds : list DOF) :
  np_distinct ds → NoDup (name <$> ds).
Proof.
  unfold np_distinct. rewrite <- np_names_fmap. apply NoDup_fmap_1.
Qed.

(** A string that does not end in a NUL character is stored as it is. *)
Lemma np_str_fixed_app (s : string) (c : Ascii.ascii) :
  c ≠ Ascii.zero → np_str (s +:+ String c "") = s +:+ String c "".
Proof.
  intros Hc. induction s as [|c' s IH].
  - change ("" +:+ String c "") with (String c ""). cbn [np_str].
    by rewrite decide_False by by intros [? _].
  - change (String c' s +:+ String c "") with (String c' (s +:+ String c "")).
    cbn [np_str]. rewrite IH. rewrite decide_False; [done|].
    intros [_ Hnil]. by destruct s.
Qed.

(** Two names that differ by a trailing NUL character only are one value to
    numpy, and a list that holds both is refused. *)
Lemma validate_trailing_nul (d1 d2 : DOF) :
  name d2 = name d1 +:+ String Ascii.zero "" →
  _validate_dofs [d1; d2] = Raise ValueError.
Proof.
  intros Hn. apply validate_duplicate. unfold np_distinct, np_name. cbn.
  rewrite Hn. intros Hnd. apply NoDup_cons_1_1 in Hnd. apply Hnd.
  apply list_elem_of_singleton. clear.
  induction (name d1) as [|c s IH]; [done|].
  change (String c s +:+ String Ascii.zero "")
    with (String c (s +:+ String Ascii.zero "")).
  cbn [np_str]. rewrite <- IH.
  destruct (np_str s) eqn:Hs; [|by rewrite !decide_False by by intros [_ ?]].
  destruct (decide (c = Ascii.zero)) as [->|Hc].
  - by rewrite !decide_True.
  - by rewrite !decide_False by by intros [? _].
Qed.

(** ** The constructor and [add] *)

Lemma same_name_not_NoDup (ds : list DOF) (i j : nat) (d1 d2 : DOF) :
  i ≠ j → ds !! i = Some d1 → ds !! j = Some d2 → name d1 = name d2 →
  ¬ np_distinct ds.
Proof.
  intros Hij H1 H2 Hn Hnd. apply Hij.
  eapply (proj1 (NoDup_alt _) Hnd i j (np_name d1)).
  - by rewrite list_lookup_fmap, H1.
  - rewrite list_lookup_fmap, H2. unfold np_name. by rewrite Hn.
Qed.

Lemma names_snoc_NoDup (ds : list DOF) (d : DOF) :
  NoDup (name <$> ds ++ [d]) ↔ NoDup (name <$> ds) ∧ name d ∉ name <$> ds.
Proof.
  rewrite fmap_app, NoDup_app. cbn [fmap list_fmap]. split.
  - intros (Hnd & Hdis & _). split; [done|]. intros Hin.
    apply (Hdis _ Hin). left.
  - intros [Hnd Hnin]. split_and!; [done| |apply NoDup_singleton].
    intros x Hx ->%list_elem_of_singleton. done.
Qed.

Lemma np_distinct_snoc (ds : list DOF) (d : DOF) :
  np_distinct (ds ++ [d]) ↔ np_distinct ds ∧ np_name d ∉ np_name <$> ds.
Proof.
  unfold np_distinct. rewrite fmap_app, NoDup_app. cbn [fmap list_fmap]. split.
  - intros (Hnd & Hdis & _). split; [done|]. intros Hin.
    apply (Hdis _ Hin). left.
  - intros [Hnd Hnin]. split_and!; [done| |apply NoDup_singleton].
    intros x Hx ->%list_elem_of_singleton. done.
Qed.

Lemma np_name_elem_of (ds : list DOF) (d : DOF) :
  name d ∈ name <$> ds → np_name d ∈ np_name <$> ds.
Proof.
  intros (d' & Heq & Hin)%list_elem_of_fmap. apply list_elem_of_fmap.
  exists d'. split; [|done]. unfold np_name. by rewrite Heq.
Qed.

Lemma init_spec (l : loc) (σ : store) (ds : list DOF) :
  σ !! l = Some ds →
  DOFList.__init__ l σ =
  if decide (np_distinct ds)
  then (Ok {| dofs := l |}, σ) else (Raise ValueError, σ).
Proof.
  intros Hl. unfold DOFList.__init__. rewrite Hl. cbn [default from_option id].
  rewrite validate_spec. by case_decide.
Qed.

Lemma add_spec (L : DOFList) (d : DOF) (σ : store) (ds : list DOF) :
  σ !! dofs L = Some ds →
  DOFList.add L d σ =
  if decide (np_distinct ds ∧ np_name d ∉ np_name <$> ds)
  then (Ok (), <[dofs L := ds ++ [d]]> σ) else (Raise ValueError, σ).
Proof.
  intros Hl. unfold DOFList.add, DOFList.contents.
  rewrite Hl. cbn [default from_option id]. rewrite validate_spec.
  destruct (decide (np_distinct (ds ++ [d]))) as [Hnd|Hnd].
  - rewrite decide_True by by apply np_distinct_snoc. f_equal.
    apply map_eq. intros l'. destruct (decide (l' = dofs L)) as [->|Hne].
    + by rewrite lookup_alter_eq, lookup_insert_eq, Hl.
    + by rewrite lookup_alter_ne, lookup_insert_ne.
  - rewrite decide_False; [done|]. by rewrite <- np_distinct_snoc.
Qed.

Lemma alloc_fresh (xs : list DOF) (σ : store) :
  σ !! (alloc xs σ).1 = None ∧
  (alloc xs σ).2 = <[(alloc xs σ).1 := xs]> σ.
Proof.
  unfold alloc; cbn [fst snd]. split; [|done].
  apply not_elem_of_dom, is_fresh.
Qed.

Lemma initial_ok : world_ok initial.
Proof.
  split; [by eexists|]. intros L HL. cbn in HL. by apply elem_of_nil in HL.
Qed.

Lemma unique_names_intro (σ : store) (L : DOFList) (ds : list DOF) :
  σ !! dofs L = Some ds → np_distinct ds → unique_names σ L.
Proof.
  intros Hds Hnd. exists ds. split_and!; [done| |done].
  by apply np_distinct_names.
Qed.

Lemma unique_names_lookup (σ : store) (L : DOFList) (ds : list DOF) :
  σ !! dofs L = Some ds → unique_names σ L → np_distinct ds.
Proof. intros Hds (ds' & Hds' & _ & Hnd). congruence. Qed.

Lemma unique_names_insert_other (σ : store) (l : loc) (xs : list DOF) (L : DOFList) :
  σ !! l = None → unique_names σ L → unique_names (<[l := xs]> σ) L.
Proof.
  intros Hl (ds & Hds & Hnd). exists ds. split; [|done].
  rewrite lookup_insert_ne; [done|]. intros ->. congruence.
Qed.

Lemma keep_ok (w : world) (r : result DOFList * store) :
  is_Some (r.2 !! default_dofs) →
  (∀ L, L ∈ created w → unique_names r.2 L) →
  (∀ L, r.1 = Ok L → unique_names r.2 L) →
  world_ok (keep r w).
Proof.
  intros Hdef Hold Hnew. split; [done|]. intros L. unfold keep; cbn.
  destruct r.1 as [L'|e]; [|by auto].
  intros [HL| ->%list_elem_of_singleton]%elem_of_app; auto.
Qed.

Lemma init_keep_ok (w : world) (l : loc) (ds : list DOF) :
  world_ok w → lists w !! l = Some ds →
  world_ok (keep (DOFList.__init__ l (lists w)) w).
Proof.
  intros [Hdef Hinv] Hl. rewrite (init_spec _ _ _ Hl).
  case_decide; apply keep_ok; cbn; try done.
  intros L [= <-]. by apply (unique_names_intro _ _ ds).
Qed.

Lemma fresh_not_default (σ : store) (l : loc) :
  is_Some (σ !! default_dofs) → σ !! l = None → l ≠ default_dofs.
Proof. intros [ds Hd] Hl ->. congruence. Qed.

Lemma exec_ok (w : world) (c : command) : world_ok w → world_ok (exec w c).
Proof.
  intros Hw. pose proof Hw as [Hdef Hinv].
  destruct c as [xs|l| |k d|k a r t]; cbn [exec].
  - destruct (alloc_fresh xs (lists w)) as [Hfresh ->].
    split; cbn [lists created].
    + rewrite lookup_insert_ne; [done|]. by apply (fresh_not_default (lists w)).
    + intros L HL. by apply unique_names_insert_other, Hinv.
  - case_decide as Hl; [|done]. destruct Hl as [ds Hl].
    by eapply init_keep_ok.
  - destruct Hdef as [ds Hl]. by eapply init_keep_ok.
  - destruct (created w !! k) as [L|] eqn:Hk; [|done].
    destruct (Hinv L) as (ds & Hds & Hnd); [by eapply list_elem_of_lookup_2|].
    rewrite (add_spec _ _ _ _ Hds). case_decide as Hok; cbn [fst snd]; [|done].
    split; cbn [lists created].
    + destruct (decide (default_dofs = dofs L)) as [->|Hne].
      * rewrite lookup_insert_eq. by eexists.
      * by rewrite lookup_insert_ne.
    + intros L' HL'. destruct (decide (dofs L' = dofs L)) as [Heq|Hne].
      * apply (unique_names_intro _ _ (ds ++ [d])).
        -- by rewrite Heq, lookup_insert_eq.
        -- by apply np_distinct_snoc.
      * destruct (Hinv L' HL') as (ds' & Hds' & Hnd'). exists ds'.
        by rewrite lookup_insert_ne.
  - destruct (created w !! k) as [L|] eqn:Hk; [|done].
    unfold DOFList.subset. destruct (DOFList._dof_mask _ _ _ _ _) as [mask|e].
    + set (xs := (filter _ _).*1).
      destruct (alloc_fresh xs (lists w)) as [Hfresh Heq].
      destruct (alloc xs (lists w)) as [l σ'] eqn:Ha.
      cbn [fst snd] in Hfresh, Heq. subst σ'.
      assert (Hl : <[l := xs]> (lists w) !! l = Some xs)
        by apply lookup_insert_eq.
      rewrite (init_spec _ _ _ Hl).
      assert (is_Some (<[l := xs]> (lists w) !! default_dofs)).
      { rewrite lookup_insert_ne; [done|]. by apply (fresh_not_default (lists w)). }
      assert (∀ L', L' ∈ created w → unique_names (<[l := xs]> (lists w)) L').
      { intros L' HL'. by apply unique_names_insert_other, Hinv. }
      case_decide; apply keep_ok; cbn [fst snd]; try done.
      intros L' [= <-]. by apply (unique_names_intro _ _ xs).
    + apply keep_ok; cbn [fst snd]; done.
Qed.

Lemma run_ok (cs : list command) : world_ok (run cs).
Proof.
  unfold run. induction cs as [|c cs IH] using rev_ind; [apply initial_ok|].
  rewrite foldl_app. cbn. by apply exec_ok.
Qed.

(** C1: the names of the DOFs of a DOFList are pairwise distinct. The
    constructor raises ValueError on a list in which two DOFs (at different
    positions) have the same name; [add] raises ValueError, and leaves the
    store as it was, when the collection already has a DOF of that name;
    and in every world reached by a program of constructor, [add] and
    [subset] calls, every DOFList built has pairwise distinct names. *)
Theorem dof_names_unique :
  (∀ (σ : store) (l : loc) (ds : list DOF) (i j : nat) (d1 d2 : DOF),
     σ !! l = Some ds → i ≠ j → ds !! i = Some d1 → ds !! j = Some d2 →
     name d1 = name d2 →
     DOFList.__init__ l σ = (Raise ValueError, σ)) ∧
  (∀ (σ : store) (L : DOFList) (ds : list DOF) (d : DOF),
     σ !! dofs L = Some ds → name d ∈ name <$> ds →
     DOFList.add L d σ = (Raise ValueError, σ)) ∧
  (∀ (cs : list command) (L : DOFList),
     L ∈ created (run cs) → unique_names (lists (run cs)) L).
Proof.
  split_and!.
  - intros σ l ds i j d1 d2 Hl Hij H1 H2 Hn.
    rewrite (init_spec _ _ _ Hl), decide_False; [done|].
    by eapply same_name_not_NoDup.
  - intros σ L ds d Hl Hin. rewrite (add_spec _ _ _ _ Hl).
    rewrite decide_False; [done|]. intros [_ Hnew].
    by apply Hnew, np_name_elem_of.
  - intros cs L. apply run_ok.
Qed.

Lemma dof_names_unique_witness :
  let x := dof_named "x" false true [] in
  let y := dof_named "y" false true [] in
  DOFList.__init__ 2%positive {[ 2%positive := [x; y; x] ]}
    = (Raise ValueError, {[ 2%positive := [x; y; x] ]}) ∧
  DOFList.add {| dofs := 2%positive |} y {[ 2%positive := [x; y] ]}
    = (Raise ValueError, {[ 2%positive := [x; y] ]}) ∧
  unique_names
    (lists (run [NewList [x]; Construct 2%positive; Add 0 y; Add 0 x]))
    {| dofs := 2%positive |}.
Proof.
  intros x y. destruct dof_names_unique as (Hinit & Hadd & Hinv). split_and!.
  - apply (Hinit _ _ [x; y; x] 0 2 x x); try done.
  - apply (Hadd _ _ [x; y] y); [done|]. vm_compute. right. left.
  - apply Hinv. vm_compute. left.
Defined.

(** ** Indexing *)

Lemma list_getitem_nonneg {A : Type} (l : list A) (k : nat) (x : A) :
  l !! k = Some x → list_getitem l (Z.of_nat k) = Ok x.
Proof.
  intros Hk. pose proof (lookup_lt_Some _ _ _ Hk) as Hlt.
  unfold list_getitem; cbv zeta.
  destruct (Z.ltb_spec (Z.of_nat k) 0) as [?|_]; [lia|].
  rewrite decide_True by lia. by rewrite Nat2Z.id, Hk.
Qed.

Lemma list_getitem_from_end {A : Type} (l : list A) (k : nat) (x : A) :
  l !! k = Some x →
  list_getitem l (Z.of_nat k - Z.of_nat (length l)) = Ok x.
Proof.
  intros Hk. pose proof (lookup_lt_Some _ _ _ Hk) as Hlt.
  unfold list_getitem; cbv zeta.
  destruct (Z.ltb_spec (Z.of_nat k - Z.of_nat (length l)) 0) as [_|?]; [|lia].
  rewrite decide_True by lia.
  replace (Z.of_nat k - Z.of_nat (length l) + Z.of_nat (length l))%Z
    with (Z.of_nat k) by lia.
  by rewrite Nat2Z.id, Hk.
Qed.

Lemma list_getitem_out_of_range {A : Type} (l : list A) (i : Z) :
  (i < - Z.of_nat (length l) ∨ Z.of_nat (length l) ≤ i)%Z →
  list_getitem l i = Raise IndexError.
Proof.
  intros Hi. unfold list_getitem; cbv zeta.
  destruct (Z.ltb_spec i 0); rewrite decide_False; (done || lia).
Qed.

(** A successful [l[i]] reads position [i], or [len(l) + i] when [i] is
    negative. *)
Lemma list_getitem_Ok {A : Type} (l : list A) (i : Z) (x : A) :
  list_getitem l i = Ok x →
  ∃ k, l !! k = Some x ∧
       (i = Z.of_nat k ∨ i = (Z.of_nat k - Z.of_nat (length l))%Z).
Proof.
  unfold list_getitem; cbv zeta. intros H.
  destruct (Z.ltb_spec i 0); case_decide; try done.
  - exists (Z.to_nat (i + Z.of_nat (length l))).
    destruct (l !! _) as [y|] eqn:Hk; [|done].
    assert (y = x) as -> by (cbn in H; congruence). split; [done|]. right. lia.
  - exists (Z.to_nat i). destruct (l !! _) as [y|] eqn:Hk; [|done].
    assert (y = x) as -> by (cbn in H; congruence). split; [done|]. left. lia.
Qed.

Lemma list_index_Ok `{EqDecision A} (l : list A) (x : A) (k : nat) :
  list_index l x = Ok k ↔
  l !! k = Some x ∧ ∀ j y, l !! j = Some y → j < k → y ≠ x.
Proof.
  unfold list_index. destruct (list_find _ l) as [[k' y]|] eqn:Hf; cbn.
  - apply list_find_Some in Hf as (Hk' & -> & Hfirst). split.
    + intros [= <-]. done.
    + intros [Hk Hmin]. f_equal.
      destruct (Nat.lt_trichotomy k k') as [Hlt|[->|Hlt]]; [|done|].
      * by destruct (Hfirst _ _ Hk Hlt).
      * by destruct (Hmin _ _ Hk' Hlt).
  - split; [done|]. intros [Hk _]. apply list_find_None in Hf.
    rewrite Forall_forall in Hf. destruct (Hf x); [|done].
    by eapply list_elem_of_lookup_2.
Qed.

Lemma list_index_elem_of `{EqDecision A} (l : list A) (x : A) :
  x ∈ l → ∃ k, list_index l x = Ok k.
Proof.
  intros Hx. unfold list_index.
  destruct (list_find_elem_of (λ y, y = x) l x Hx eq_refl) as [[k y] ->].
  by exists k.
Qed.

Lemma list_index_not_elem_of `{EqDecision A} (l : list A) (x : A) :
  x ∉ l → list_index l x = Raise ValueError.
Proof.
  intros Hx. unfold list_index.
  destruct (list_find _ l) as [[k y]|] eqn:Hf; [|done].
  apply list_find_Some in Hf as (Hk & -> & _).
  destruct Hx. by eapply list_elem_of_lookup_2.
Qed.

Lemma list_index_NoDup `{EqDecision A} (l : list A) (x : A) (k : nat) :
  NoDup l → l !! k = Some x → list_index l x = Ok k.
Proof.
  intros Hnd Hk. apply list_index_Ok. split; [done|].
  intros j y Hj Hlt ->. pose proof (NoDup_lookup _ _ _ _ Hnd Hj Hk). lia.
Qed.

Lemma getitem_str (σ : store) (L : DOFList) (ds : list DOF) (s : string) (k : nat) :
  σ !! dofs L = Some ds →
  list_index (name <$> ds) s = Ok k →
  ∃ d, DOFList.__getitem__ σ L (PyStr s) = Ok d ∧ ds !! k = Some d ∧ name d = s.
Proof.
  intros Hds Hk. pose proof Hk as [Hlook _]%list_index_Ok.
  rewrite list_lookup_fmap in Hlook.
  destruct (ds !! k) as [d|] eqn:Hd; [|done]. injection Hlook as Hn.
  exists d. split_and!; [|done..].
  unfold DOFList.__getitem__, DOFList.names, DOFList.contents.
  rewrite Hds. cbn [default from_option id]. rewrite Hk. cbn.
  by apply list_getitem_nonneg.
Qed.

(** A string that names no DOF: [list.index] raises ValueError. *)
Lemma getitem_unknown_name (σ : store) (L : DOFList) (s : string) :
  s ∉ DOFList.names σ L →
  DOFList.__getitem__ σ L (PyStr s) = Raise ValueError.
Proof.
  intros Hs. unfold DOFList.__getitem__.
  by rewrite (list_index_not_elem_of _ _ Hs).
Qed.

(** An integer outside the range of the list: IndexError. *)
Lemma getitem_out_of_range (σ : store) (L : DOFList) (i : Z) :
  (i < - Z.of_nat (DOFList.__len__ σ L) ∨ Z.of_nat (DOFList.__len__ σ L) ≤ i)%Z →
  DOFList.__getitem__ σ L (PyInt i) = Raise IndexError.
Proof. apply list_getitem_out_of_range. Qed.

(** A negative integer counts from the end of the list. *)
Lemma getitem_from_end (σ : store) (L : DOFList) (k : nat) (d : DOF) :
  DOFList.contents σ L !! k = Some d →
  DOFList.__getitem__ σ L (PyInt (Z.of_nat k - Z.of_nat (DOFList.__len__ σ L)))
  = Ok d.
Proof. apply list_getitem_from_end. Qed.

(** C3: [L[i]] with an integer [i] returns the DOF at position [i] of the
    underlying list; [L[s]] with a string [s] that names a DOF returns the
    first DOF whose name is [s]; and indexing with a value whose type is
    neither [int] nor [str] raises ValueError. *)
Theorem getitem_spec (σ : store) (L : DOFList) (ds : list DOF) :
  σ !! dofs L = Some ds →
  (∀ (k : nat) (d : DOF),
     ds !! k = Some d →
     DOFList.__getitem__ σ L (PyInt (Z.of_nat k)) = Ok d) ∧
  (∀ s : string,
     s ∈ name <$> ds →
     ∃ (k : nat) (d : DOF),
       DOFList.__getitem__ σ L (PyStr s) = Ok d ∧
       ds !! k = Some d ∧ name d = s ∧
       ∀ (j : nat) (d' : DOF), ds !! j = Some d' → j < k → name d' ≠ s) ∧
  (∀ v : pyval,
     type v ≠ Tint → type v ≠ Tstr →
     DOFList.__getitem__ σ L v = Raise ValueError).
Proof.
  intros Hds. split_and!.
  - intros k d Hk. unfold DOFList.__getitem__, DOFList.contents.
    rewrite Hds. by apply list_getitem_nonneg.
  - intros s [k Hk]%list_index_elem_of.
    destruct (getitem_str _ _ _ _ _ Hds Hk) as (d & Hget & Hd & Hn).
    exists k, d. split_and!; [done..|].
    intros j d' Hj Hlt. apply list_index_Ok in Hk as [_ Hmin].
    apply (Hmin j); [|done]. by rewrite list_lookup_fmap, Hj.
  - intros v Hint Hstr. by destruct v.
Qed.

Lemma getitem_spec_witness :
  let x := dof_named "x" false true [] in
  let y := dof_named "y" true true ["a"] in
  let σ : store := {[ 2%positive := [x; y] ]} in
  let L := {| dofs := 2%positive |} in
  DOFList.__getitem__ σ L (PyInt 1) = Ok y ∧
  (∃ (k : nat) (d : DOF),
     DOFList.__getitem__ σ L (PyStr "y") = Ok d ∧
     [x; y] !! k = Some d ∧ name d = "y" ∧
     ∀ (j : nat) (d' : DOF), [x; y] !! j = Some d' → j < k → name d' ≠ "y") ∧
  DOFList.__getitem__ σ L (PyBool true) = Raise ValueError.
Proof.
  intros x y σ L.
  destruct (getitem_spec σ L [x; y] eq_refl) as (Hint & Hstr & Hother).
  split_and!.
  - by apply (Hint 1).
  - apply Hstr. vm_compute. right. left.
  - by apply Hother.
Defined.

(** Under the uniqueness invariant a name is found at the position of its
    DOF. *)
Lemma names_index_of_lookup (σ : store) (L : DOFList) (ds : list DOF) (k : nat) (d : DOF) :
  σ !! dofs L = Some ds → NoDup (name <$> ds) → ds !! k = Some d →
  list_index (DOFList.names σ L) (name d) = Ok k.
Proof.
  intros Hds Hnd Hk. unfold DOFList.names, DOFList.contents.
  rewrite Hds. cbn [default from_option id].
  apply list_index_NoDup; [done|]. by rewrite list_lookup_fmap, Hk.
Qed.

(** C4: in a DOFList with pairwise distinct names, whenever [L[i]] returns
    a DOF [d] for an integer [i], the name of [d] is found at the position
    [i] selects, and [L[d.name]] returns [d]. *)
Theorem getitem_name_roundtrip (σ : store) (L : DOFList) (ds : list DOF) (i : Z) (d : DOF) :
  σ !! dofs L = Some ds →
  NoDup (name <$> ds) →
  DOFList.__getitem__ σ L (PyInt i) = Ok d →
  DOFList.__getitem__ σ L (PyStr (name d)) = Ok d ∧
  ∃ k : nat,
    list_index (DOFList.names σ L) (name d) = Ok k ∧
    (i = Z.of_nat k ∨ i = (Z.of_nat k - Z.of_nat (length ds))%Z).
Proof.
  intros Hds Hnd Hget.
  unfold DOFList.__getitem__, DOFList.contents in Hget.
  rewrite Hds in Hget. cbn [default from_option id] in Hget.
  apply list_getitem_Ok in Hget as (k & Hk & Hi).
  pose proof (names_index_of_lookup _ _ _ _ _ Hds Hnd Hk) as Hidx.
  split; [|by exists k].
  unfold DOFList.__getitem__. rewrite Hidx. cbn.
  unfold DOFList.contents. rewrite Hds. by apply list_getitem_nonneg.
Qed.

Lemma getitem_name_roundtrip_witness :
  let x := dof_named "x" false true [] in
  let y := dof_named "y" true true ["a"] in
  let σ : store := {[ 2%positive := [x; y] ]} in
  let L := {| dofs := 2%positive |} in
  DOFList.__getitem__ σ L (PyStr (name x)) = Ok x ∧
  ∃ k : nat,
    list_index (DOFList.names σ L) (name x) = Ok k ∧
    ((-2)%Z = Z.of_nat k ∨ (-2)%Z = (Z.of_nat k - Z.of_nat (length [x; y]))%Z).
Proof.
  intros x y σ L.
  apply (getitem_name_roundtrip σ L [x; y] (-2) x); [done| |done].
  apply (bool_decide_unpack _). by vm_compute.
Defined.

(** ** Subsetting *)

Lemma zip_filter_fmap {A : Type} (g : A → bool) (a : list A) :
  (filter (λ p, p.2 = true) (zip a (g <$> a))).*1 = filter (λ x, g x = true) a.
Proof. apply np_select_fmap. Qed.

Lemma tags_mask_no_tags (σ : store) (L : DOFList) :
  DOFList._dof_tags_mask σ L [] = Ok ((λ _, true) <$> DOFList.contents σ L).
Proof.
  unfold DOFList._dof_tags_mask.
  induction (DOFList.contents σ L) as [|d ds IH]; [done|].
  cbn [mapM]. rewrite IH. done.
Qed.

(** With a non-empty [tags] the mask subscripts the first DOF, which
    raises. *)
Lemma tags_mask_raises (σ : store) (L : DOFList) (d : DOF) (ds : list DOF)
    (t : string) (ts : list string) :
  σ !! dofs L = Some (d :: ds) →
  DOFList._dof_tags_mask σ L (t :: ts) = Raise TypeError.
Proof.
  intros Hds. unfold DOFList._dof_tags_mask, DOFList.contents.
  by rewrite Hds.
Qed.

Lemma tags_mask_empty (σ : store) (L : DOFList) (ts : list string) :
  σ !! dofs L = Some [] → DOFList._dof_tags_mask σ L ts = Ok [].
Proof.
  intros Hds. unfold DOFList._dof_tags_mask, DOFList.contents.
  by rewrite Hds.
Qed.

Lemma mask_no_tags (σ : store) (L : DOFList) (a r : option bool) :
  DOFList._dof_mask σ L a r [] =
  Ok ((λ d, bool_decide (selected a r d)) <$> DOFList.contents σ L).
Proof.
  unfold DOFList._dof_mask; cbv zeta. rewrite tags_mask_no_tags. cbn.
  f_equal. unfold DOFList._dof_read_only_mask, DOFList._dof_active_mask.
  induction (DOFList.contents σ L) as [|d ds IH]; [done|].
  cbn [fmap list_fmap zip zip_with] in *. rewrite IH. f_equal.
  unfold selected, wanted.
  destruct a as [a|], r as [r|]; cbn [fst snd];
    repeat case_bool_decide; try done; tauto.
Qed.

Lemma filter_names_NoDup (P : DOF → Prop) `{∀ d, Decision (P d)} (ds : list DOF) :
  NoDup (name <$> ds) → NoDup (name <$> filter P ds).
Proof.
  intros Hnd. eapply sublist_NoDup; [done|].
  apply fmap_sublist, sublist_filter.
Qed.

Lemma filter_np_distinct (P : DOF → Prop) `{∀ d, Decision (P d)} (ds : list DOF) :
  np_distinct ds → np_distinct (filter P ds).
Proof.
  unfold np_distinct. intros Hnd. eapply sublist_NoDup; [done|].
  apply fmap_sublist, sublist_filter.
Qed.

Lemma subset_no_tags (σ : store) (L : DOFList) (ds : list DOF) (a r : option bool) :
  σ !! dofs L = Some ds →
  np_distinct ds →
  DOFList.subset L a r [] σ =
  (Ok {| dofs := fresh (dom σ) |},
   <[fresh (dom σ) := filter (selected a r) ds]> σ).
Proof.
  intros Hds Hnd. unfold DOFList.subset. rewrite mask_no_tags.
  unfold DOFList.contents. rewrite Hds. cbn [default from_option id].
  rewrite zip_filter_fmap.
  rewrite (list_filter_iff _ (selected a r))
    by (intros d; apply bool_decide_eq_true).
  unfold alloc.
  rewrite (init_spec _ _ (filter (selected a r) ds)) by apply lookup_insert_eq.
  rewrite decide_True by by apply filter_np_distinct. done.
Qed.

Lemma subset_tags_raises (σ : store) (L : DOFList) (d : DOF) (ds : list DOF)
    (a r : option bool) (t : string) (ts : list string) :
  σ !! dofs L = Some (d :: ds) →
  DOFList.subset L a r (t :: ts) σ = (Raise TypeError, σ).
Proof.
  intros Hds. unfold DOFList.subset, DOFList._dof_mask; cbv zeta.
  by rewrite (tags_mask_raises _ _ _ _ _ _ Hds).
Qed.

(** The result of [subset] without tags is a new list object next to the
    original one. *)
Lemma subset_no_tags_lookup (σ : store) (L : DOFList) (ds : list DOF) (a r : option bool) :
  σ !! dofs L = Some ds →
  np_distinct ds →
  ∃ (L' : DOFList) (σ' : store),
    DOFList.subset L a r [] σ = (Ok L', σ') ∧
    σ' !! dofs L' = Some (filter (selected a r) ds) ∧
    σ' !! dofs L = Some ds.
Proof.
  intros Hds Hnd. eexists _, _. split; [by apply subset_no_tags|].
  cbn [dofs]. split; [apply lookup_insert_eq|].
  rewrite lookup_insert_ne; [done|]. intros Heq.
  pose proof (is_fresh (dom σ)) as Hfresh. rewrite Heq in Hfresh.
  apply Hfresh, elem_of_dom. by eexists.
Qed.

Lemma filter_selected_all (ds : list DOF) : filter (selected None None) ds = ds.
Proof.
  induction ds as [|d ds IH]; [done|].
  rewrite filter_cons_True by done. by rewrite IH.
Qed.

(** C2 (subsetting by tags): on a collection of one DOF tagged ["a"],
    [subset(tags=["a"])] raises TypeError instead of returning a DOFList
    with that DOF. *)
Example subset_by_tag_raises :
  let x := dof_named "x" false true ["a"] in
  let σ : store := {[ 2%positive := [x] ]} in
  DOFList.subset {| dofs := 2%positive |} None None ["a"] σ
  = (Raise TypeError, σ).
Proof. intros x σ. by apply (subset_tags_raises σ _ x []). Qed.

(** C5: on a DOFList that satisfies the uniqueness invariant (as every
    DOFList built by the constructor, [add] and [subset] does), [subset()]
    with its default arguments returns a new DOFList whose list holds the
    same DOFs in the same order; the original list is left as it was. *)
Theorem subset_default_identity (σ : store) (L : DOFList) (ds : list DOF) :
  σ !! dofs L = Some ds →
  unique_names σ L →
  ∃ (L' : DOFList) (σ' : store),
    DOFList.subset L None None [] σ = (Ok L', σ') ∧
    σ' !! dofs L' = Some ds ∧
    σ' !! dofs L = Some ds.
Proof.
  intros Hds Hnd%(unique_names_lookup _ _ ds Hds).
  destruct (subset_no_tags_lookup σ L ds None None Hds Hnd)
    as (L' & σ' & Hsub & HL' & HL).
  exists L', σ'. by rewrite filter_selected_all in HL'.
Qed.

Lemma subset_default_identity_witness :
  let x := dof_named "x" false true [] in
  let y := dof_named "y" true false ["a"] in
  let σ : store := {[ 2%positive := [x; y] ]} in
  let L := {| dofs := 2%positive |} in
  ∃ (L' : DOFList) (σ' : store),
    DOFList.subset L None None [] σ = (Ok L', σ') ∧
    σ' !! dofs L' = Some [x; y] ∧
    σ' !! dofs L = Some [x; y].
Proof.
  intros x y σ L. apply (subset_default_identity σ L [x; y]); [done|].
  apply (unique_names_intro σ L [x; y]); [done|].
  apply (bool_decide_unpack _). by vm_compute.
Defined.

(** C6: on a DOFList that satisfies the uniqueness invariant (as every
    DOFList built by the constructor, [add] and [subset] does),
    [subset(active=a, read_only=r, tags=[])] returns a new DOFList whose
    list holds exactly the DOFs of the original, in their order, whose
    [active] flag is what [a] asks for and whose [read_only] flag is what
    [r] asks for, where [None] asks nothing; the original list is left as it
    was. *)
Theorem subset_by_flags (σ : store) (L : DOFList) (ds : list DOF) (a r : option bool) :
  σ !! dofs L = Some ds →
  unique_names σ L →
  ∃ (L' : DOFList) (σ' : store),
    DOFList.subset L a r [] σ = (Ok L', σ') ∧
    σ' !! dofs L' =
      Some (filter (λ d, wanted (active d) a ∧ wanted (read_only d) r) ds) ∧
    σ' !! dofs L = Some ds.
Proof.
  intros Hds Hnd%(unique_names_lookup _ _ ds Hds).
  by apply subset_no_tags_lookup.
Qed.

Lemma subset_by_flags_witness :
  let x := dof_named "x" false true [] in
  let y := dof_named "y" true true ["a"] in
  let z := dof_named "z" false false [] in
  let σ : store := {[ 2%positive := [x; y; z] ]} in
  let L := {| dofs := 2%positive |} in
  ∃ (L' : DOFList) (σ' : store),
    DOFList.subset L (Some true) (Some false) [] σ = (Ok L', σ') ∧
    σ' !! dofs L' =
      Some (filter (λ d, wanted (active d) (Some true) ∧
                         wanted (read_only d) (Some false)) [x; y; z]) ∧
    σ' !! dofs L = Some [x; y; z].
Proof.
  intros x y z σ L.
  apply (subset_by_flags σ L [x; y; z] (Some true) (Some false)); [done|].
  apply (unique_names_intro σ L [x; y; z]); [done|].
  apply (bool_decide_unpack _). by vm_compute.
Defined.

(** ** Activation *)

Lemma subset_dofs_unbound : "_subset_dofs" ∉ DOFList.attributes.
Proof. apply (bool_decide_unpack _). by vm_compute. Qed.

Lemma set_active_of_raises (b : bool) (L : DOFList) (ro act : option bool)
    (tg : list string) (σ : store) :
  DOFList.set_active_of b L ro act tg σ = (Raise AttributeError, σ).
Proof.
  unfold DOFList.set_active_of, DOFList.getattr.
  by rewrite decide_False by apply subset_dofs_unbound.
Qed.

(** C8: [activate] and [deactivate] raise AttributeError on every DOFList
    and with every argument, and leave the store, hence every [active] flag,
    as it was. *)
Theorem activate_deactivate_raise (L : DOFList) (ro act : option bool)
    (tg : list string) (σ : store) :
  DOFList.activate L ro act tg σ = (Raise AttributeError, σ) ∧
  DOFList.deactivate L ro act tg σ = (Raise AttributeError, σ).
Proof. split; apply set_active_of_raises. Qed.

(** ** Constant readback *)

Lemma reads_constant (self : ConstantReadback.t) (clocks : list float) :
  ConstantReadback.reads self clocks =
  replicate (length clocks) (ConstantReadback.constant self).
Proof.
  induction clocks as [|c clocks IH]; [done|].
  cbn [ConstantReadback.reads ConstantReadback.get length replicate].
  by rewrite IH.
Qed.

(** C7: a ConstantReadback built with the value [c] returns [c] from every
    [get], whatever the clock reads and however many reads came before, and
    each [get] leaves the object as it was. *)
Theorem constant_readback_get (c : pyval) (n : string) :
  (∀ clocks : list float,
     ConstantReadback.reads (ConstantReadback.__init__ c n) clocks =
     replicate (length clocks) c) ∧
  (∀ (self : ConstantReadback.t) (clock : float),
     (ConstantReadback.get self clock).2 = self).
Proof.
  split; [|done]. intros clocks. by rewrite reads_constant.
Qed.

(** A TimeReadback, by contrast, returns what the clock reads. *)
Lemma time_readback_get (self : TimeReadback.t) (clock : float) :
  TimeReadback.get self clock = (PyFloat clock, self).
Proof. done. Qed.

(** ** Construction of a DOF *)

(** The outcome of [__post_init__], case by case on the read-only check. *)
Lemma post_init_Ok (self self' : DOF_self) (g g' : uuid_gen) :
  DOF.__post_init__ self g = (Ok self', g') →
  let n := default (DOF.device_name_or (self_device self) (g 0)) (self_name self) in
  let dev := default (Signal n) (self_device self) in
  (self_read_only self = true ∨ isinstance_SignalRO dev = false) ∧
  self_name self' = Some n ∧
  self_device self' = Some (set_kind "hinted" dev) ∧
  self_latent_group self' = Some (default (g 1) (self_latent_group self)) ∧
  self_uuid self' = Some (g 0).
Proof.
  unfold DOF.__post_init__, uuid4. cbv zeta.
  destruct self as [dev desc nm lim un ro act tg lg latent u]; cbn.
  destruct nm as [nm|], dev as [dev|], ro, latent as [latent|]; cbn;
    try destruct (isinstance_SignalRO dev) eqn:Hro; cbn;
    intros [= <- <-]; cbn; split_and!; auto.
Qed.

(** C9: after a construction that succeeds, [name], [device] and
    [latent_group] are set. A name left at None becomes the name of the
    device, or the UUID the DOF drew when there is no device; a device left
    at None becomes a new Signal (an instance of the class Signal itself)
    whose name is the name of the DOF; a latent group left at None becomes
    the next UUID drawn. *)
Theorem post_init_sets_fields (self self' : DOF_self) (g g' : uuid_gen) :
  DOF.__post_init__ self g = (Ok self', g') →
  (∃ (n : string) (dev : signal) (lg : string),
     self_name self' = Some n ∧ self_device self' = Some dev ∧
     self_latent_group self' = Some lg ∧ dev_kind dev = "hinted" ∧
     is_Some (DOF.constructed self')) ∧
  (self_name self = None →
   self_name self' =
     Some (match self_device self with
           | Some dev => dev_name dev
           | None => g 0
           end)) ∧
  (self_device self = None →
   ∃ (n : string) (dev : signal),
     self_name self' = Some n ∧
     self_device self' = Some dev ∧
     dev = set_kind "hinted" (Signal n) ∧
     dev_name dev = n ∧ dev_class dev = cls_Signal) ∧
  (self_latent_group self = None → self_latent_group self' = Some (g 1)) ∧
  (∀ n : string, self_name self = Some n → self_name self' = Some n) ∧
  (∀ dev : signal,
     self_device self = Some dev →
     self_device self' = Some (set_kind "hinted" dev)) ∧
  (∀ lg : string,
     self_latent_group self = Some lg → self_latent_group self' = Some lg).
Proof.
  intros Hpost.
  destruct (post_init_Ok _ _ _ _ Hpost) as (_ & Hn & Hdev & Hlg & Hu).
  cbv zeta in *. split_and!.
  - eexists _, _, _. split_and!; [done..|].
    unfold DOF.constructed. rewrite Hn, Hdev, Hlg, Hu. by eexists.
  - intros Hnone. rewrite Hn, Hnone. by destruct (self_device self).
  - intros Hnone. eexists _, _. split_and!; [done| |done..].
    by rewrite Hdev, Hnone.
  - intros Hnone. by rewrite Hlg, Hnone.
  - intros n Hsome. by rewrite Hn, Hsome.
  - intros dev Hsome. by rewrite Hdev, Hsome.
  - intros lg Hsome. by rewrite Hlg, Hsome.
Qed.

Lemma post_init_sets_fields_witness :
  ∃ (self' : DOF_self) (dev : signal) (lg : string),
    (DOF.__post_init__ DOF.defaults counting_uuids).1 = Ok self' ∧
    self_name self' = Some "uuid-0" ∧
    self_device self' = Some dev ∧
    dev_name dev = "uuid-0" ∧ dev_class dev = cls_Signal ∧
    self_latent_group self' = Some lg ∧
    self_latent_group self' = Some "uuid-1".
Proof.
  destruct (DOF.__post_init__ DOF.defaults counting_uuids) as [[self'|e] g']
    eqn:Hpost; [|by vm_compute in Hpost].
  destruct (post_init_sets_fields _ _ _ _ Hpost)
    as ((n & dev0 & lg & _ & _ & Hlg & _) & Hname & Hdev & Hlatent & _).
  destruct Hdev as (n' & dev & Hn' & Hd & _ & Hdn & Hdc); [done|].
  rewrite Hname in Hn' by done. injection Hn' as <-.
  exists self', dev, lg. split_and!; [done| |done..|].
  - by apply Hname.
  - by apply Hlatent.
Defined.

(** C10: with a device that is an instance of SignalRO, construction raises
    ValueError when [read_only] is False and succeeds, keeping the device,
    when [read_only] is True. *)
Theorem read_only_device_check (self : DOF_self) (g : uuid_gen) (dev : signal) :
  self_device self = Some dev →
  isinstance_SignalRO dev = true →
  (self_read_only self = false →
   (DOF.__post_init__ self g).1 = Raise ValueError) ∧
  (self_read_only self = true →
   ∃ self' : DOF_self,
     (DOF.__post_init__ self g).1 = Ok self' ∧
     self_device self' = Some (set_kind "hinted" dev) ∧
     self_read_only self' = true).
Proof.
  intros Hdev Hro. unfold DOF.__post_init__, uuid4. cbv zeta.
  destruct self as [dev' desc nm lim un ro act tg lg latent u].
  cbn in Hdev. subst dev'. cbn.
  split; intros ->; cbn.
  - destruct nm; cbn; by rewrite Hro.
  - destruct nm, latent; cbn; by eexists.
Qed.

Lemma read_only_device_check_witness :
  let dev := {| dev_class := cls_BrownianMotion; dev_name := "drift";
                dev_kind := "normal" |} in
  let given (ro : bool) : DOF_self :=
    {| self_device := Some dev; self_description := None; self_name := None;
       self_limits := ((-10)%float, 10%float); self_units := "";
       self_read_only := ro; self_active := true; self_tags := [];
       self_log := false; self_latent_group := None; self_uuid := None |} in
  (DOF.__post_init__ (given false) counting_uuids).1 = Raise ValueError ∧
  ∃ self' : DOF_self,
    (DOF.__post_init__ (given true) counting_uuids).1 = Ok self' ∧
    self_device self' = Some (set_kind "hinted" dev) ∧
    self_read_only self' = true.
Proof.
  intros dev given. split.
  - by apply (read_only_device_check (given false) counting_uuids dev).
  - by apply (read_only_device_check (given true) counting_uuids dev).
Defined.

(** * Further properties *)

(** ** Validation, constructor and [add] *)

Lemma duplicate_positions {A : Type} `{EqDecision A} (l : list A) :
  ¬ NoDup l → ∃ (i j : nat) (x : A), i < j ∧ l !! i = Some x ∧ l !! j = Some x.
Proof.
  induction l as [|x l IH]; intros Hnd; [by destruct Hnd; constructor|].
  destruct (decide (x ∈ l)) as [Hx|Hx].
  - apply list_elem_of_lookup_1 in Hx as [k Hk].
    exists 0, (S k), x. split_and!; [lia|done..].
  - destruct IH as (i & j & y & Hij & Hi & Hj).
    { intros Hl. apply Hnd. by constructor. }
    exists (S i), (S j), y. split_and!; [lia|done..].
Qed.

(** X1: [_validate_dofs] either returns the list it was given, when no two
    positions hold DOFs whose names numpy takes for one value (names equal
    up to trailing NUL characters, equal names in particular), or raises
    ValueError, when two positions do; it has no other outcome. *)
Theorem validate_dofs_outcome (ds : list DOF) :
  (_validate_dofs ds = Ok ds ∧
   ∀ (i j : nat) (d1 d2 : DOF),
     ds !! i = Some d1 → ds !! j = Some d2 →
     np_str (name d1) = np_str (name d2) → i = j) ∨
  (_validate_dofs ds = Raise ValueError ∧
   ∃ (i j : nat) (d1 d2 : DOF),
     i < j ∧ ds !! i = Some d1 ∧ ds !! j = Some d2 ∧
     np_str (name d1) = np_str (name d2)).
Proof.
  rewrite validate_spec. case_decide as Hnd; [left|right]; (split; [done|]).
  - intros i j d1 d2 H1 H2 Hn.
    apply (NoDup_lookup _ i j (np_name d1) Hnd).
    + by rewrite list_lookup_fmap, H1.
    + rewrite list_lookup_fmap, H2. unfold np_name. by rewrite Hn.
  - apply duplicate_positions in Hnd as (i & j & n & Hij & Hi & Hj).
    rewrite list_lookup_fmap in Hi, Hj.
    destruct (ds !! i) as [d1|] eqn:H1; [|done].
    destruct (ds !! j) as [d2|] eqn:H2; [|done].
    exists i, j, d1, d2. cbn in Hi, Hj. unfold np_name in Hi, Hj.
    split_and!; [done..|congruence].
Qed.

(** X2: a DOFList keeps the very list it was constructed from, so a
    successful [add] appends to the list object of the caller; no other list
    changes. *)
Theorem add_mutates_given_list (σ σ1 σ2 : store) (l : loc) (ds : list DOF)
    (L : DOFList) (d : DOF) :
  σ !! l = Some ds →
  DOFList.__init__ l σ = (Ok L, σ1) →
  DOFList.add L d σ1 = (Ok (), σ2) →
  σ1 = σ ∧ dofs L = l ∧ σ2 !! l = Some (ds ++ [d]) ∧
  ∀ l' : loc, l' ≠ l → σ2 !! l' = σ !! l'.
Proof.
  intros Hl Hinit Hadd. rewrite (init_spec _ _ _ Hl) in Hinit.
  case_decide; [|done]. injection Hinit as <- <-. cbn [dofs] in *.
  rewrite (add_spec {| dofs := l |} d σ ds Hl) in Hadd. case_decide; [|done].
  injection Hadd as <-. split_and!; [done..|apply lookup_insert_eq|].
  intros l' Hne. by rewrite lookup_insert_ne.
Qed.

Lemma add_mutates_given_list_witness :
  let x := dof_named "x" false true [] in
  let y := dof_named "y" false true [] in
  let σ : store := {[ 2%positive := [x]; 3%positive := [y] ]} in
  let L := {| dofs := 2%positive |} in
  let σ2 : store := <[2%positive := [x; y]]> σ in
  DOFList.__init__ 2%positive σ = (Ok L, σ) ∧
  DOFList.add L y σ = (Ok (), σ2) ∧
  σ2 !! 2%positive = Some ([x] ++ [y]) ∧
  σ2 !! 3%positive = σ !! 3%positive.
Proof.
  intros x y σ L σ2.
  assert (Hinit : DOFList.__init__ 2%positive σ = (Ok L, σ)) by by vm_compute.
  assert (Hadd : DOFList.add L y σ = (Ok (), σ2)).
  { rewrite (add_spec _ _ _ [x]) by done. by vm_compute. }
  destruct (add_mutates_given_list σ σ σ2 2%positive [x] L y eq_refl Hinit Hadd)
    as (_ & _ & Hl & Hframe).
  split_and!; [done..|]. by apply Hframe.
Defined.

(** X3: the list behind [DOFList()] is one object for all calls: once a DOF
    has been added to a DOFList built without argument, the next
    [DOFList()] succeeds and already holds that DOF. *)
Theorem default_list_is_shared (σ σ' : store) (ds : list DOF) (L : DOFList) (d : DOF) :
  σ !! default_dofs = Some ds →
  DOFList.__init__ default_dofs σ = (Ok L, σ) →
  DOFList.add L d σ = (Ok (), σ') →
  ∃ L' : DOFList,
    DOFList.__init__ default_dofs σ' = (Ok L', σ') ∧
    DOFList.contents σ' L' = ds ++ [d].
Proof.
  intros Hl Hinit Hadd. rewrite (init_spec _ _ _ Hl) in Hinit.
  case_decide; [|done]. injection Hinit as <-.
  rewrite (add_spec {| dofs := default_dofs |} d σ ds Hl) in Hadd.
  case_decide as Hok; [|done]. injection Hadd as <-. cbn [dofs].
  assert (Hl' : <[default_dofs := ds ++ [d]]> σ !! default_dofs
                = Some (ds ++ [d])) by apply lookup_insert_eq.
  exists {| dofs := default_dofs |}. split.
  - rewrite (init_spec _ _ _ Hl').
    by rewrite decide_True by by apply np_distinct_snoc.
  - unfold DOFList.contents. cbn [dofs]. by rewrite Hl'.
Qed.

Lemma default_list_is_shared_witness :
  let x := dof_named "x" false true [] in
  let σ' : store := <[default_dofs := [x]]> (lists initial) in
  ∃ L' : DOFList,
    DOFList.__init__ default_dofs σ' = (Ok L', σ') ∧
    DOFList.contents σ' L' = [] ++ [x].
Proof.
  intros x σ'.
  apply (default_list_is_shared (lists initial) σ' [] {| dofs := default_dofs |} x);
    [done|by vm_compute|].
  rewrite (add_spec _ _ _ []) by done. by vm_compute.
Defined.

(** X4: on a DOFList that satisfies the uniqueness invariant, [add] of a
    DOF whose name numpy tells apart from every name in the collection (a
    name that differs from each of them by more than trailing NUL
    characters) succeeds; afterwards the collection is one longer, the new
    DOF is its last element and is found by its name, and every earlier DOF
    is still at its position. *)
Theorem add_then_lookup (σ : store) (L : DOFList) (ds : list DOF) (d : DOF) :
  σ !! dofs L = Some ds →
  unique_names σ L →
  np_name d ∉ np_name <$> ds →
  ∃ σ' : store,
    DOFList.add L d σ = (Ok (), σ') ∧
    DOFList.__len__ σ' L = S (DOFList.__len__ σ L) ∧
    DOFList.__getitem__ σ' L (PyInt (-1)) = Ok d ∧
    DOFList.__getitem__ σ' L (PyStr (name d)) = Ok d ∧
    ∀ (k : nat) (d0 : DOF),
      ds !! k = Some d0 →
      DOFList.__getitem__ σ' L (PyInt (Z.of_nat k)) = Ok d0.
Proof.
  intros Hds Hnd%(unique_names_lookup _ _ ds Hds) Hnew.
  exists (<[dofs L := ds ++ [d]]> σ).
  assert (Hds' : <[dofs L := ds ++ [d]]> σ !! dofs L = Some (ds ++ [d]))
    by apply lookup_insert_eq.
  assert (Hlast : (ds ++ [d]) !! length ds = Some d).
  { rewrite lookup_app_r by lia. by rewrite Nat.sub_diag. }
  assert (Hnd' : NoDup (name <$> ds ++ [d])).
  { by apply np_distinct_names, np_distinct_snoc. }
  split_and!.
  - rewrite (add_spec _ _ _ _ Hds). by rewrite decide_True.
  - unfold DOFList.__len__, DOFList.contents. rewrite Hds, Hds'. cbn.
    rewrite length_app. cbn. lia.
  - unfold DOFList.__getitem__, DOFList.contents. rewrite Hds'.
    cbn [default from_option id].
    replace (-1)%Z with (Z.of_nat (length ds) - Z.of_nat (length (ds ++ [d])))%Z
      by (rewrite length_app; cbn; lia).
    by apply list_getitem_from_end.
  - unfold DOFList.__getitem__.
    rewrite (names_index_of_lookup _ _ _ _ _ Hds' Hnd' Hlast).
    cbn. unfold DOFList.contents. rewrite Hds'. by apply list_getitem_nonneg.
  - intros k d0 Hk. unfold DOFList.__getitem__, DOFList.contents. rewrite Hds'.
    apply list_getitem_nonneg. by apply lookup_app_l_Some.
Qed.

Lemma add_then_lookup_witness :
  let x := dof_named "x" false true [] in
  let y := dof_named "y" true true ["a"] in
  let σ : store := {[ 2%positive := [x] ]} in
  let L := {| dofs := 2%positive |} in
  ∃ σ' : store,
    DOFList.add L y σ = (Ok (), σ') ∧
    DOFList.__len__ σ' L = S (DOFList.__len__ σ L) ∧
    DOFList.__getitem__ σ' L (PyInt (-1)) = Ok y ∧
    DOFList.__getitem__ σ' L (PyStr (name y)) = Ok y ∧
    ∀ (k : nat) (d0 : DOF),
      [x] !! k = Some d0 →
      DOFList.__getitem__ σ' L (PyInt (Z.of_nat k)) = Ok d0.
Proof.
  intros x y σ L. apply (add_then_lookup σ L [x] y); [done| |].
  - apply (unique_names_intro σ L [x]); [done|].
    apply (bool_decide_unpack _). by vm_compute.
  - apply (bool_decide_unpack _). by vm_compute.
Defined.

(** ** Indexing *)

(** X5: an integer index [i] with [-len(L) <= i < len(L)] selects position
    [i mod len(L)]; every other integer raises IndexError. *)
Theorem getitem_int_outcome (σ : store) (L : DOFList) (i : Z) :
  let n := Z.of_nat (DOFList.__len__ σ L) in
  ((- n ≤ i < n)%Z ∧
   ∃ d : DOF,
     DOFList.__getitem__ σ L (PyInt i) = Ok d ∧
     DOFList.contents σ L !! Z.to_nat (i mod n) = Some d) ∨
  (¬ (- n ≤ i < n)%Z ∧
   DOFList.__getitem__ σ L (PyInt i) = Raise IndexError).
Proof.
  intros n. destruct (decide (- n ≤ i < n)%Z) as [Hin|Hout]; [left|right].
  - split; [done|]. unfold DOFList.__len__ in n.
    assert (Hlt : Z.to_nat (i mod n) < length (DOFList.contents σ L))
      by (pose proof (Z.mod_pos_bound i n); lia).
    apply lookup_lt_is_Some in Hlt as [d Hd]. exists d. split; [|done].
    cbn [DOFList.__getitem__].
    destruct (decide (0 ≤ i)%Z) as [Hpos|Hneg].
    + rewrite Z.mod_small in Hd by lia.
      rewrite <- (Z2Nat.id i) by done. by apply list_getitem_nonneg.
    + replace (i mod n)%Z with (i + n)%Z in Hd.
      2:{ apply (Z.mod_unique _ _ (-1)); lia. }
      replace i with (Z.of_nat (Z.to_nat (i + n)) - n)%Z by lia.
      by apply list_getitem_from_end.
  - split; [done|]. apply list_getitem_out_of_range.
    unfold DOFList.__len__ in n. lia.
Qed.

(** X6: a string index returns a DOF of that name when the string is among
    the names of the collection, and raises ValueError otherwise. *)
Theorem getitem_str_outcome (σ : store) (L : DOFList) (s : string) :
  ((s ∈ DOFList.names σ L) ∧
   ∃ d : DOF,
     DOFList.__getitem__ σ L (PyStr s) = Ok d ∧
     d ∈ DOFList.contents σ L ∧ name d = s) ∨
  ((s ∉ DOFList.names σ L) ∧
   DOFList.__getitem__ σ L (PyStr s) = Raise ValueError).
Proof.
  destruct (decide (s ∈ DOFList.names σ L)) as [Hin|Hout]; [left|right].
  - split; [done|]. apply list_index_elem_of in Hin as [k Hk].
    pose proof Hk as [Hlook _]%list_index_Ok.
    unfold DOFList.names in Hlook. rewrite list_lookup_fmap in Hlook.
    destruct (DOFList.contents σ L !! k) as [d|] eqn:Hd; [|done].
    exists d. split_and!.
    + cbn [DOFList.__getitem__]. rewrite Hk. cbn.
      by apply list_getitem_nonneg.
    + by eapply list_elem_of_lookup_2.
    + cbn in Hlook. congruence.
  - split; [done|]. cbn [DOFList.__getitem__].
    by rewrite (list_index_not_elem_of _ _ Hout).
Qed.

(** ** Subsetting *)

Lemma tags_mask_outcome (σ : store) (L : DOFList) (t : string) (ts : list string) :
  DOFList._dof_tags_mask σ L (t :: ts) =
  match DOFList.contents σ L with
  | [] => Ok []
  | _ :: _ => Raise TypeError
  end.
Proof.
  unfold DOFList._dof_tags_mask. by destruct (DOFList.contents σ L).
Qed.

(** X7: with a non-empty list of tags, [subset] returns only on an empty
    collection, where the result is a new empty DOFList; on a collection
    with at least one DOF it raises TypeError and changes nothing,
    whatever the tags of the DOFs and the other arguments are. *)
Theorem subset_with_tags_outcome (σ : store) (L : DOFList) (a r : option bool)
    (t : string) (ts : list string) :
  (DOFList.contents σ L = [] ∧
   ∃ (L' : DOFList) (σ' : store),
     DOFList.subset L a r (t :: ts) σ = (Ok L', σ') ∧
     σ !! dofs L' = None ∧ σ' !! dofs L' = Some []) ∨
  (DOFList.contents σ L ≠ [] ∧
   DOFList.subset L a r (t :: ts) σ = (Raise TypeError, σ)).
Proof.
  unfold DOFList.subset, DOFList._dof_mask; cbv zeta.
  rewrite tags_mask_outcome.
  destruct (DOFList.contents σ L) as [|d ds] eqn:Hc; [left|right].
  - split; [done|]. cbn.
    exists {| dofs := fresh (dom σ) |}, (<[fresh (dom σ) := []]> σ).
    split_and!.
    + by rewrite (init_spec _ _ []) by apply lookup_insert_eq.
    + apply not_elem_of_dom, is_fresh.
    + apply lookup_insert_eq.
  - done.
Qed.

Lemma zip_fst_sublist {A B : Type} (l : list A) (k : list B) :
  (zip l k).*1 `sublist_of` l.
Proof.
  revert k. induction l as [|x l IH]; intros [|y k]; cbn;
    [done|done|apply sublist_nil_l|].
  by apply sublist_skip.
Qed.

Lemma init_store (l : loc) (σ : store) : (DOFList.__init__ l σ).2 = σ.
Proof. unfold DOFList.__init__. by destruct (_validate_dofs _). Qed.

(** [subset] leaves every existing list as it was, whether it returns or
    raises. *)
Lemma subset_store_frame (σ : store) (L : DOFList) (a r : option bool)
    (tg : list string) (l : loc) :
  is_Some (σ !! l) → (DOFList.subset L a r tg σ).2 !! l = σ !! l.
Proof.
  intros Hl. unfold DOFList.subset.
  destruct (DOFList._dof_mask σ L a r tg) as [mask|e]; [|done].
  unfold alloc. rewrite init_store, lookup_insert_ne; [done|].
  intros <-. by apply (is_fresh (dom σ)), elem_of_dom.
Qed.

(** X8: whenever [subset] returns, with any arguments, its result is a list
    object that did not exist before, holding DOFs of the original in their
    original order and with pairwise distinct names; every list that
    existed, the original included, is as it was. *)
Theorem subset_result (σ σ' : store) (L L' : DOFList) (ds : list DOF)
    (a r : option bool) (tg : list string) :
  σ !! dofs L = Some ds →
  DOFList.subset L a r tg σ = (Ok L', σ') →
  σ !! dofs L' = None ∧
  (∃ ds' : list DOF,
     σ' !! dofs L' = Some ds' ∧ ds' `sublist_of` ds ∧ NoDup (name <$> ds')) ∧
  ∀ l : loc, is_Some (σ !! l) → σ' !! l = σ !! l.
Proof.
  intros Hds. unfold DOFList.subset, DOFList.contents. rewrite Hds.
  cbn [default from_option id].
  destruct (DOFList._dof_mask σ L a r tg) as [mask|e]; [|done].
  set (xs := (filter _ _).*1).
  assert (Hsub : xs `sublist_of` ds).
  { etrans; [|apply (zip_fst_sublist ds mask)].
    apply fmap_sublist, sublist_filter. }
  unfold alloc.
  rewrite (init_spec _ _ xs) by apply lookup_insert_eq.
  case_decide as Hnd; [|done]. intros [= <- <-]. cbn [dofs].
  pose proof (is_fresh (dom σ)) as Hfresh.
  split_and!.
  - by apply not_elem_of_dom.
  - exists xs. split_and!; [apply lookup_insert_eq|done|].
    by apply np_distinct_names.
  - intros l Hl. rewrite lookup_insert_ne; [done|].
    intros <-. by apply Hfresh, elem_of_dom.
Qed.

Lemma subset_result_witness :
  let x := dof_named "x" false true [] in
  let y := dof_named "y" true true ["a"] in
  let σ : store := {[ 2%positive := [x; y] ]} in
  let L := {| dofs := 2%positive |} in
  let L' := {| dofs := fresh (dom σ) |} in
  let σ' := <[fresh (dom σ) := [y]]> σ in
  σ !! dofs L' = None ∧
  (∃ ds' : list DOF,
     σ' !! dofs L' = Some ds' ∧ ds' `sublist_of` [x; y] ∧
     NoDup (name <$> ds')) ∧
  ∀ l : loc, is_Some (σ !! l) → σ' !! l = σ !! l.
Proof.
  intros x y σ L L' σ'.
  apply (subset_result σ σ' L L' [x; y] None (Some true) []); [done|].
  by vm_compute.
Defined.

(** X9: filters compose. On a DOFList that satisfies the uniqueness
    invariant, taking
    the subset by [active] and then the subset of the result by [read_only]
    gives a DOFList with the same DOFs in the same order as the subset by
    both at once. *)
Theorem subset_in_two_steps (σ : store) (L : DOFList) (ds : list DOF)
    (a r : option bool) :
  σ !! dofs L = Some ds →
  unique_names σ L →
  ∃ (L1 L2 L3 : DOFList) (σ1 σ2 σ3 : store),
    DOFList.subset L a None [] σ = (Ok L1, σ1) ∧
    DOFList.subset L1 None r [] σ1 = (Ok L2, σ2) ∧
    DOFList.subset L a r [] σ2 = (Ok L3, σ3) ∧
    DOFList.contents σ3 L3 = DOFList.contents σ3 L2.
Proof.
  intros Hds Hnd%(unique_names_lookup _ _ ds Hds).
  destruct (subset_no_tags_lookup σ L ds a None Hds Hnd)
    as (L1 & σ1 & Hs1 & HL1 & Hds1).
  pose proof (filter_np_distinct (selected a None) ds Hnd) as Hnd1.
  destruct (subset_no_tags_lookup σ1 L1 _ None r HL1 Hnd1)
    as (L2 & σ2 & Hs2 & HL2 & _).
  assert (Hds2 : σ2 !! dofs L = Some ds).
  { pose proof (subset_store_frame σ1 L1 None r [] (dofs L)) as Hframe.
    rewrite Hs2 in Hframe. cbn [snd] in Hframe. rewrite Hframe; by eauto. }
  destruct (subset_no_tags_lookup σ2 L ds a r Hds2 Hnd)
    as (L3 & σ3 & Hs3 & HL3 & _).
  exists L1, L2, L3, σ1, σ2, σ3. split_and!; [done..|].
  pose proof (subset_store_frame σ2 L a r [] (dofs L2)) as Hframe.
  rewrite Hs3 in Hframe. cbn [snd] in Hframe.
  unfold DOFList.contents. rewrite HL3, Hframe, HL2 by eauto. cbn.
  rewrite list_filter_filter. apply list_filter_iff.
  intros d. unfold selected, wanted. tauto.
Qed.

Lemma subset_in_two_steps_witness :
  let x := dof_named "x" false true [] in
  let y := dof_named "y" true true ["a"] in
  let z := dof_named "z" true false [] in
  let σ : store := {[ 2%positive := [x; y; z] ]} in
  let L := {| dofs := 2%positive |} in
  ∃ (L1 L2 L3 : DOFList) (σ1 σ2 σ3 : store),
    DOFList.subset L (Some true) None [] σ = (Ok L1, σ1) ∧
    DOFList.subset L1 None (Some true) [] σ1 = (Ok L2, σ2) ∧
    DOFList.subset L (Some true) (Some true) [] σ2 = (Ok L3, σ3) ∧
    DOFList.contents σ3 L3 = DOFList.contents σ3 L2.
Proof.
  intros x y z σ L.
  apply (subset_in_two_steps σ L [x; y; z] (Some true) (Some true)); [done|].
  apply (unique_names_intro σ L [x; y; z]); [done|].
  apply (bool_decide_unpack _). by vm_compute.
Defined.

(** X10: on a DOFList that satisfies the uniqueness invariant, the subset
    of the
    active DOFs and the subset of the inactive DOFs split the collection:
    together they hold every DOF of the original exactly once. *)
Theorem subset_active_partition (σ : store) (L : DOFList) (ds : list DOF) :
  σ !! dofs L = Some ds →
  unique_names σ L →
  ∃ (Lt Lf : DOFList) (σ1 σ2 : store),
    DOFList.subset L (Some true) None [] σ = (Ok Lt, σ1) ∧
    DOFList.subset L (Some false) None [] σ1 = (Ok Lf, σ2) ∧
    DOFList.contents σ2 Lt ++ DOFList.contents σ2 Lf ≡ₚ ds ∧
    DOFList.__len__ σ2 Lt + DOFList.__len__ σ2 Lf = DOFList.__len__ σ2 L.
Proof.
  intros Hds Hnd%(unique_names_lookup _ _ ds Hds).
  destruct (subset_no_tags_lookup σ L ds (Some true) None Hds Hnd)
    as (Lt & σ1 & Hs1 & HLt & Hds1).
  destruct (subset_no_tags_lookup σ1 L ds (Some false) None Hds1 Hnd)
    as (Lf & σ2 & Hs2 & HLf & Hds2).
  pose proof (subset_store_frame σ1 L (Some false) None [] (dofs Lt)) as Hframe.
  rewrite Hs2 in Hframe. cbn [snd] in Hframe.
  assert (Hperm : DOFList.contents σ2 Lt ++ DOFList.contents σ2 Lf ≡ₚ ds).
  { unfold DOFList.contents. rewrite HLf, Hframe, HLt by eauto. cbn.
    rewrite (list_filter_iff (selected (Some false) None)
               (λ d, ¬ selected (Some true) None d)).
    - apply filter_app_complement.
    - intros d. unfold selected, wanted.
      destruct (active d); intuition congruence. }
  exists Lt, Lf, σ1, σ2. split_and!; [done..|].
  unfold DOFList.__len__. rewrite <- length_app, Hperm.
  unfold DOFList.contents. by rewrite Hds2.
Qed.

Lemma subset_active_partition_witness :
  let x := dof_named "x" false true [] in
  let y := dof_named "y" true false ["a"] in
  let σ : store := {[ 2%positive := [x; y] ]} in
  let L := {| dofs := 2%positive |} in
  ∃ (Lt Lf : DOFList) (σ1 σ2 : store),
    DOFList.subset L (Some true) None [] σ = (Ok Lt, σ1) ∧
    DOFList.subset L (Some false) None [] σ1 = (Ok Lf, σ2) ∧
    DOFList.contents σ2 Lt ++ DOFList.contents σ2 Lf ≡ₚ [x; y] ∧
    DOFList.__len__ σ2 Lt + DOFList.__len__ σ2 Lf = DOFList.__len__ σ2 L.
Proof.
  intros x y σ L. apply (subset_active_partition σ L [x; y]); [done|].
  apply (unique_names_intro σ L [x; y]); [done|].
  apply (bool_decide_unpack _). by vm_compute.
Defined.

Lemma getitem_str_Ok_inv (σ : store) (L : DOFList) (s : string) (d : DOF) :
  DOFList.__getitem__ σ L (PyStr s) = Ok d →
  d ∈ DOFList.contents σ L ∧ name d = s.
Proof.
  cbn [DOFList.__getitem__]. intros Hget.
  destruct (list_index (DOFList.names σ L) s) as [k|e] eqn:Hk; [|done].
  cbn in Hget. apply list_getitem_Ok in Hget as (k' & Hk' & [Heq|Heq]).
  - apply Nat2Z.inj in Heq as <-. split; [by eapply list_elem_of_lookup_2|].
    apply list_index_Ok in Hk as [Hlook _]. unfold DOFList.names in Hlook.
    rewrite list_lookup_fmap, Hk' in Hlook. cbn in Hlook. congruence.
  - pose proof (lookup_lt_Some _ _ _ Hk'). lia.
Qed.

Lemma getitem_str_unique (σ : store) (L : DOFList) (d : DOF) :
  NoDup (DOFList.names σ L) → d ∈ DOFList.contents σ L →
  DOFList.__getitem__ σ L (PyStr (name d)) = Ok d.
Proof.
  intros Hnd [k Hk]%list_elem_of_lookup_1. cbn [DOFList.__getitem__].
  rewrite (list_index_NoDup _ _ k Hnd)
    by (unfold DOFList.names; by rewrite list_lookup_fmap, Hk).
  cbn. by apply list_getitem_nonneg.
Qed.

(** X19: a subset hands out the DOFs of the original. On a DOFList with
    pairwise distinct names, a DOF found under a name in a subset is the
    DOF found under that name in the original. *)
Theorem subset_then_lookup (σ σ' : store) (L L' : DOFList) (ds : list DOF)
    (a r : option bool) (tg : list string) (s : string) (d : DOF) :
  σ !! dofs L = Some ds →
  NoDup (name <$> ds) →
  DOFList.subset L a r tg σ = (Ok L', σ') →
  DOFList.__getitem__ σ' L' (PyStr s) = Ok d →
  DOFList.__getitem__ σ' L (PyStr s) = Ok d.
Proof.
  intros Hds Hnd Hsub Hget.
  apply getitem_str_Ok_inv in Hget as [Hin <-].
  pose proof (subset_store_frame σ L a r tg (dofs L)) as Hframe.
  rewrite Hsub in Hframe. cbn [snd] in Hframe.
  assert (Hds' : σ' !! dofs L = Some ds) by (rewrite Hframe; by eauto).
  assert (Hc : DOFList.contents σ' L = ds)
    by (unfold DOFList.contents; by rewrite Hds').
  apply getitem_str_unique.
  - unfold DOFList.names. by rewrite Hc.
  - rewrite Hc. revert Hin. apply sublist_subseteq.
    unfold DOFList.subset, DOFList.contents in Hsub. rewrite Hds in Hsub.
    cbn [default from_option id] in Hsub.
    destruct (DOFList._dof_mask σ L a r tg) as [mask|e]; [|done].
    unfold alloc in Hsub. rewrite (init_spec _ _ _ (lookup_insert_eq _ _ _)) in Hsub.
    case_decide; [|done]. injection Hsub as <- <-.
    unfold DOFList.contents. cbn [dofs]. rewrite lookup_insert_eq. cbn.
    etrans; [|apply (zip_fst_sublist ds mask)].
    apply fmap_sublist, sublist_filter.
Qed.

Lemma subset_then_lookup_witness :
  let x := dof_named "x" false true [] in
  let y := dof_named "y" true true ["a"] in
  let σ : store := {[ 2%positive := [x; y] ]} in
  let L := {| dofs := 2%positive |} in
  DOFList.__getitem__ (<[fresh (dom σ) := [y]]> σ) L (PyStr "y") = Ok y.
Proof.
  intros x y σ L.
  apply (subset_then_lookup σ (<[fresh (dom σ) := [y]]> σ) L
           {| dofs := fresh (dom σ) |} [x; y] None (Some true) [] "y" y);
    [done| |by vm_compute|by vm_compute].
  apply (bool_decide_unpack _). by vm_compute.
Defined.

(** ** Programs *)

Lemma exec_grows (w : world) (c : command) (L : DOFList) :
  world_ok w → L ∈ created w →
  L ∈ created (exec w c) ∧
  DOFList.contents (lists w) L
    `prefix_of` DOFList.contents (lists (exec w c)) L.
Proof.
  intros [Hdef Hinv] HL. destruct (Hinv L HL) as (ds & Hds & Hnd).
  assert (Hkeep : ∀ r, L ∈ created (keep r w)).
  { intros r. unfold keep; cbn. destruct r.1; [|done].
    apply elem_of_app. by left. }
  destruct c as [xs|l| |k d|k a r t]; cbn [exec].
  - split; [done|]. cbn [lists]. unfold alloc, DOFList.contents. cbn [snd].
    rewrite lookup_insert_ne; [done|]. intros Heq.
    apply (is_fresh (dom (lists w))). rewrite Heq. apply elem_of_dom. by eexists.
  - case_decide; [|done]. split; [done|].
    unfold keep; cbn [lists]. by rewrite init_store.
  - split; [done|]. unfold keep; cbn [lists]. by rewrite init_store.
  - destruct (created w !! k) as [L0|] eqn:Hk; [|done].
    split; [done|]. cbn [lists].
    destruct (Hinv L0) as (ds0 & Hds0 & _); [by eapply list_elem_of_lookup_2|].
    rewrite (add_spec _ _ _ _ Hds0). case_decide; cbn [snd]; [|done].
    unfold DOFList.contents. rewrite Hds.
    destruct (decide (dofs L = dofs L0)) as [Heq|Hne].
    + rewrite Heq, lookup_insert_eq. cbn.
      rewrite Heq, Hds0 in Hds. injection Hds as <-. by apply prefix_app_r.
    + rewrite lookup_insert_ne by done. by rewrite Hds.
  - destruct (created w !! k) as [L0|] eqn:Hk; [|done].
    split; [done|]. unfold keep; cbn [lists]. unfold DOFList.contents.
    by rewrite subset_store_frame by eauto.
Qed.

(** X11: a DOFList only ever grows at its end. However a program of list
    displays, constructor calls, [add] and [subset] goes on, a DOFList it
    has built stays, and the list it held is a prefix of the list it holds
    later: no step removes, replaces or reorders a DOF. *)
Theorem dof_lists_are_append_only (cs1 cs2 : list command) (L : DOFList) :
  L ∈ created (run cs1) →
  L ∈ created (run (cs1 ++ cs2)) ∧
  DOFList.contents (lists (run cs1)) L
    `prefix_of` DOFList.contents (lists (run (cs1 ++ cs2))) L.
Proof.
  intros HL. induction cs2 as [|c cs2 IH] using rev_ind.
  - by rewrite app_nil_r.
  - destruct IH as [HL' Hpre]. rewrite app_assoc. unfold run at 1 3.
    rewrite foldl_app. cbn [foldl]. fold (run (cs1 ++ cs2)).
    destruct (exec_grows (run (cs1 ++ cs2)) c L (run_ok _) HL') as [? Hstep].
    split; [done|]. by etrans.
Qed.

Lemma dof_lists_are_append_only_witness :
  let x := dof_named "x" false true [] in
  let y := dof_named "y" false true [] in
  let L := {| dofs := 2%positive |} in
  let cs1 := [NewList [x]; Construct 2%positive] in
  let cs2 := [Add 0 y; Subset 0 None None []; NewList [y; y]] in
  L ∈ created (run (cs1 ++ cs2)) ∧
  DOFList.contents (lists (run cs1)) L
    `prefix_of` DOFList.contents (lists (run (cs1 ++ cs2))) L.
Proof.
  intros x y L cs1 cs2. apply (dof_lists_are_append_only cs1 cs2 L).
  vm_compute. left.
Defined.

(** ** Construction of a DOF *)

(** X12: [__post_init__] fails in one case only: [read_only] is False and
    the device given is an instance of SignalRO; the exception is then
    ValueError. In particular a construction without device never fails. *)
Theorem post_init_fails_iff (self : DOF_self) (g : uuid_gen) :
  (self_read_only self = false ∧
   (∃ dev : signal,
      self_device self = Some dev ∧ isinstance_SignalRO dev = true) ∧
   (DOF.__post_init__ self g).1 = Raise ValueError) ∨
  (¬ (self_read_only self = false ∧
      ∃ dev : signal,
        self_device self = Some dev ∧ isinstance_SignalRO dev = true) ∧
   ∃ self' : DOF_self, (DOF.__post_init__ self g).1 = Ok self').
Proof.
  unfold DOF.__post_init__, uuid4. cbv zeta.
  destruct self as [dev desc nm lim un ro act tg lg latent u]; cbn.
  destruct ro; cbn.
  - right. split; [by intros [? _]|].
    destruct nm, dev, latent; cbn; by eexists.
  - destruct dev as [dev|].
    + destruct (isinstance_SignalRO dev) eqn:Hro.
      * left. split_and!; [done|by exists dev|].
        destruct nm; cbn; by rewrite Hro.
      * right. split; [intros [_ (dev' & [= <-] & ?)]; congruence|].
        destruct nm, latent; cbn; rewrite Hro; cbn; by eexists.
    + right. split; [by intros [_ (dev' & ? & _)]|].
      destruct nm, latent; cbn; by eexists.
Qed.

(** X13: a successful [__post_init__] leaves the description, the limits,
    the units, the flags [read_only], [active] and [log] and the tags as they
    were given, and records the first UUID it drew as [uuid]. *)
Theorem post_init_keeps_fields (self self' : DOF_self) (g g' : uuid_gen) :
  DOF.__post_init__ self g = (Ok self', g') →
  self_description self' = self_description self ∧
  self_limits self' = self_limits self ∧
  self_units self' = self_units self ∧
  self_read_only self' = self_read_only self ∧
  self_active self' = self_active self ∧
  self_tags self' = self_tags self ∧
  self_log self' = self_log self ∧
  self_uuid self' = Some (g 0).
Proof.
  unfold DOF.__post_init__, uuid4. cbv zeta.
  destruct (negb _ && _); [done|].
  destruct (self_latent_group self); intros [= <- <-]; by cbn.
Qed.

Lemma post_init_keeps_fields_witness :
  ∃ self' : DOF_self,
    (DOF.__post_init__ DOF.defaults counting_uuids).1 = Ok self' ∧
    self_units self' = self_units DOF.defaults ∧
    self_active self' = self_active DOF.defaults ∧
    self_uuid self' = Some (counting_uuids 0).
Proof.
  destruct (DOF.__post_init__ DOF.defaults counting_uuids) as [[self'|e] g']
    eqn:Hpost; [|by vm_compute in Hpost].
  destruct (post_init_keeps_fields _ _ _ _ Hpost)
    as (_ & _ & Hunits & _ & Hact & _ & _ & Hu).
  by exists self'.
Defined.

(** X14: [__post_init__] draws one UUID when it fails or when a latent
    group was given, and two when it succeeds without a latent group; the
    generator is left just after the last UUID drawn. *)
Theorem post_init_uuid_draws (self : DOF_self) (g : uuid_gen) (n : nat) :
  (DOF.__post_init__ self g).2 n =
  g (match (DOF.__post_init__ self g).1, self_latent_group self with
     | Ok _, None => 2
     | _, _ => 1
     end + n).
Proof.
  unfold DOF.__post_init__, uuid4. cbv zeta.
  destruct (negb _ && _); [done|].
  by destruct (self_latent_group self).
Qed.

(** X15: when the name or the device is left out, the constructed DOF and
    its device carry the same name. *)
Theorem post_init_name_is_device_name (self self' : DOF_self) (g g' : uuid_gen) :
  DOF.__post_init__ self g = (Ok self', g') →
  self_name self = None ∨ self_device self = None →
  ∃ (n : string) (dev : signal),
    self_name self' = Some n ∧ self_device self' = Some dev ∧ dev_name dev = n.
Proof.
  intros Hpost Hnone.
  destruct (post_init_Ok _ _ _ _ Hpost) as (_ & Hn & Hdev & _).
  cbv zeta in *. eexists _, _. split_and!; [done..|].
  destruct Hnone as [Hnone|Hnone]; rewrite Hnone; cbn;
    by destruct (self_device self), (self_name self).
Qed.

Lemma post_init_name_is_device_name_witness :
  ∃ (self' : DOF_self) (n : string) (dev : signal),
    (DOF.__post_init__ DOF.defaults counting_uuids).1 = Ok self' ∧
    self_name self' = Some n ∧ self_device self' = Some dev ∧ dev_name dev = n.
Proof.
  destruct (DOF.__post_init__ DOF.defaults counting_uuids) as [[self'|e] g']
    eqn:Hpost; [|by vm_compute in Hpost].
  destruct (post_init_name_is_device_name _ _ _ _ Hpost (or_introl eq_refl))
    as (n & dev & ? & ? & ?).
  by exists self', n, dev.
Defined.

(** A DOF built with neither name nor device is named by the first UUID of
    its construction, which always succeeds and moves the generator on by
    one or two UUIDs. *)
Lemma post_init_anonymous (self : DOF_self) (g : uuid_gen) :
  self_name self = None → self_device self = None →
  ∃ (self' : DOF_self) (d : DOF) (k : nat),
    DOF.__post_init__ self g = (Ok self', λ n, g (S k + n)) ∧
    DOF.constructed self' = Some d ∧ name d = g 0.
Proof.
  destruct self as [dev desc nm lim un ro act tg lg latent u]; cbn.
  intros -> ->. unfold DOF.__post_init__, uuid4. cbn.
  rewrite andb_false_r.
  destruct latent; cbn.
  - eexists _, _, 0. by split_and!.
  - eexists _, _, 1. by split_and!.
Qed.

Lemma construct_all_anonymous (selves : list DOF_self) (g : uuid_gen) :
  Forall (λ self, self_name self = None ∧ self_device self = None) selves →
  ∃ (ds : list DOF) (idx : list nat),
    Forall2 (λ r d, ∃ self', r = Ok self' ∧ DOF.constructed self' = Some d)
      (construct_all selves g) ds ∧
    name <$> ds = g <$> idx ∧ NoDup idx.
Proof.
  revert g. induction selves as [|self selves IH]; intros g Hanon.
  - exists [], []. split_and!; [constructor|done|constructor].
  - apply Forall_cons in Hanon as [[Hn Hd] Hanon].
    destruct (post_init_anonymous self g Hn Hd) as (self' & d & k & Hpost & Hc & Hname).
    destruct (IH (λ n, g (S k + n)) Hanon) as (ds & idx & Hall & Hnames & Hnd).
    exists (d :: ds), (0 :: ((λ n, S k + n) <$> idx)). split_and!.
    + cbn [construct_all]. rewrite Hpost. constructor; [by exists self'|done].
    + cbn. rewrite Hname, Hnames. f_equal. by rewrite <- list_fmap_compose.
    + constructor.
      * intros (n & Hn0 & _)%list_elem_of_fmap. lia.
      * apply NoDup_fmap_2; [|done]. intros n1 n2. lia.
Qed.

(** X16: DOFs constructed one after the other with neither name nor device
    all construct, and, as long as the UUID generator does not repeat
    itself and none of its UUIDs ends in a NUL character (a UUID string is
    made of hexadecimal digits and hyphens), [_validate_dofs] accepts the
    list of them. *)
Theorem anonymous_dofs_validate (selves : list DOF_self) (g : uuid_gen) :
  (∀ m n : nat, g m = g n → m = n) →
  (∀ n : nat, np_str (g n) = g n) →
  Forall (λ self, self_name self = None ∧ self_device self = None) selves →
  ∃ ds : list DOF,
    Forall2 (λ r d, ∃ self', r = Ok self' ∧ DOF.constructed self' = Some d)
      (construct_all selves g) ds ∧
    _validate_dofs ds = Ok ds.
Proof.
  intros Hinj Hplain Hanon.
  destruct (construct_all_anonymous selves g Hanon) as (ds & idx & Hall & Hn & Hnd).
  exists ds. split; [done|]. apply validate_unique.
  unfold np_distinct. rewrite <- np_names_fmap, Hn, <- list_fmap_compose.
  apply NoDup_fmap_2; [|done]. intros m n. cbn. rewrite !Hplain. apply Hinj.
Qed.

Lemma tally_uuids_S (n : nat) :
  ∃ c : Ascii.ascii, c ≠ Ascii.zero ∧ tally_uuids (S n) = String c (tally_uuids n).
Proof. eexists. split; [|reflexivity]. done. Qed.

Lemma tally_uuids_inj (m n : nat) : tally_uuids m = tally_uuids n → m = n.
Proof.
  revert n. induction m as [|m IH]; intros [|n]; [done| | |].
  - destruct (tally_uuids_S n) as (c & _ & ->). intros [= _ Heq]. by destruct n.
  - destruct (tally_uuids_S m) as (c & _ & ->). intros [= _ Heq]. by destruct m.
  - destruct (tally_uuids_S m) as (c & _ & ->).
    destruct (tally_uuids_S n) as (c' & _ & ->).
    intros [= _ Heq]. f_equal. by apply IH.
Qed.

Lemma tally_uuids_plain (n : nat) : np_str (tally_uuids n) = tally_uuids n.
Proof.
  induction n as [|n IH]; [done|].
  destruct (tally_uuids_S n) as (c & Hc & ->).
  cbn [np_str]. rewrite IH. by rewrite decide_False by by intros [? _].
Qed.

Lemma anonymous_dofs_validate_witness :
  let selves := [DOF.defaults; DOF.defaults; DOF.defaults] in
  ∃ ds : list DOF,
    Forall2 (λ r d, ∃ self', r = Ok self' ∧ DOF.constructed self' = Some d)
      (construct_all selves tally_uuids) ds ∧
    _validate_dofs ds = Ok ds.
Proof.
  intros selves. apply (anonymous_dofs_validate selves tally_uuids).
  - apply tally_uuids_inj.
  - apply tally_uuids_plain.
  - by repeat constructor.
Defined.

(** ** Derived attributes *)

(** X17: [limits] has one row per DOF of the collection, and row [k] is the
    pair of the lower and the upper limit of the DOF at position [k]. *)
Theorem limits_rows (σ : store) (L : DOFList) :
  length (DOFList.limits σ L) = DOFList.__len__ σ L ∧
  ∀ (k : nat) (d : DOF),
    DOFList.contents σ L !! k = Some d →
    DOFList.limits σ L !! k = Some (DOF.lower_limit d, DOF.upper_limit d).
Proof.
  unfold DOFList.limits, DOFList.lower_limits, DOFList.upper_limits, np_c_,
    DOFList.__len__.
  split.
  - by rewrite length_zip_with, !length_fmap, Nat.min_id.
  - intros k d Hk. apply lookup_zip_with_Some.
    exists (DOF.lower_limit d), (DOF.upper_limit d).
    by rewrite !list_lookup_fmap, Hk.
Qed.

Lemma string_app_empty (s : string) : s +:+ "" = s.
Proof.
  induction s as [|c s IH]; [done|].
  change (String c s +:+ "") with (String c (s +:+ "")). by rewrite IH.
Qed.

Lemma string_length_app (s1 s2 : string) :
  String.length (s1 +:+ s2) = String.length s1 + String.length s2.
Proof.
  induction s1 as [|c s1 IH]; [done|].
  change (String c s1 +:+ s2) with (String c (s1 +:+ s2)). cbn. by rewrite IH.
Qed.

(** X18: the label of a DOF without units is its name; the label of a DOF
    with units is its name followed by the units in square brackets, and is
    then never the bare name. *)
Theorem label_outcome (d : DOF) :
  (units d = "" ∧ DOF.label d = name d) ∨
  (units d ≠ "" ∧
   DOF.label d = name d +:+ " [" +:+ units d +:+ "]" ∧
   DOF.label d ≠ name d).
Proof.
  unfold DOF.label. destruct (units d) as [|c u] eqn:Hu; [left|right].
  - cbn. split; [done|]. by rewrite string_app_empty.
  - cbn [String.length]. rewrite decide_True by lia. split_and!; [done..|].
    intros Heq. apply (f_equal String.length) in Heq.
    rewrite !string_length_app in Heq. cbn in Heq. lia.
Qed.
